(** * imet/main.py: label binarisation, loss reduction, learning-rate
      schedules and the training loop

    A shallow embedding of the numeric core of [src/imet/main.py]:
    [_reduce_loss], [_make_mask], [binarize_prediction], the two [lr_func]
    closures and the epoch loop of [train].

    Conventions.
    - Python floats are idealised as exact rationals ([Q], compared with
      [==]); rounding is outside the model.
    - numpy 2-d arrays are lists of rows together with their column count
      ([shape1]), so that an array without rows still has a shape.
    - 0/1 masks of dtype uint8 are lists of [bool]; on 0/1 values numpy's
      [&] and [|] are [&&] and [||].
    - Python exceptions are values of [exn]; a computation that can raise
      returns a [result]. *)

From Stdlib Require Import QArith Qminmax ZArith Lia Lqa.
From stdpp Require Import base tactics option list sorting.

Set Default Proof Using "Type".
Local Open Scope nat_scope.

(** ** Exceptions *)

Inductive exn : Set :=
  | AssertionError
  | ZeroDivisionError
  | IndexError
  | ValueError
  | UnboundLocalError.

Inductive result (A : Type) : Type :=
  | Ok (a : A)
  | Raise (e : exn).
Arguments Ok {A} a.
Arguments Raise {A} e.

#[global] Instance result_ret : MRet result := λ A a, Ok a.
#[global] Instance result_bind : MBind result := λ A B f r,
  match r with
  | Ok a => f a
  | Raise e => Raise e
  end.

(** ** Rationals: the comparisons and sums the code uses *)

Definition Qgtb (x y : Q) : bool := negb (Qle_bool x y).
Definition Qltb (x y : Q) : bool := negb (Qle_bool y x).

Definition Qsum (l : list Q) : Q := foldr Qplus 0%Q l.

Definition Q_of_nat (n : nat) : Q := inject_Z (Z.of_nat n).

(** ** Loss tensors and [_reduce_loss] *)

(** The criterion is built with [reduction='none']: its value is a tensor
    with one entry per example (1-d) or per example and class (2-d). *)
Inductive tensor : Type :=
  | Tensor1 (v : list Q)
  | Tensor2 (m : list (list Q)).

(** [loss.sum()] adds up every entry. *)
Definition tensor_sum (t : tensor) : Q :=
  match t with
  | Tensor1 v => Qsum v
  | Tensor2 m => Qsum (Qsum <$> m)
  end.

(** [loss.shape[0]] *)
Definition tensor_shape0 (t : tensor) : nat :=
  match t with
  | Tensor1 v => length v
  | Tensor2 m => length m
  end.

(** <<
    def _reduce_loss(loss):
        return loss.sum() / loss.shape[0]
    >>
    A tensor division by zero does not raise in torch; in [Q] it is 0. *)
Definition _reduce_loss (loss : tensor) : Q :=
  (tensor_sum loss / Q_of_nat (tensor_shape0 loss))%Q.

(** One iteration of the batch loop of [train], as far as the loss goes:
    <<
    loss = _reduce_loss(criterion(outputs, targets))
    batch_size = inputs.size(0)
    (batch_size * loss).backward()
    >>
    A batch is given by [inputs.size(0)] and the criterion's value. *)
Record batch : Type := Batch {
  inputs_size0 : nat;
  criterion_out : tensor
}.

Definition batch_loss (b : batch) : Q := _reduce_loss (criterion_out b).

Definition backward_arg (b : batch) : Q :=
  let loss := batch_loss b in
  let batch_size := inputs_size0 b in
  (Q_of_nat batch_size * loss)%Q.

(** ** 2-d numpy arrays *)

Record array2 (A : Type) : Type := Array2 {
  shape1 : nat;              (* number of columns, [a.shape[1]] *)
  rows : list (list A)
}.
Arguments Array2 {A} shape1 rows.
Arguments shape1 {A} a.
Arguments rows {A} a.

Definition shape0 {A} (a : array2 A) : nat := length (rows a).

(** Every row has [shape1] entries. *)
Definition wf_array2 {A} (a : array2 A) : Prop :=
  Forall (λ r, length r = shape1 a) (rows a).

Definition same_shape {A B} (a : array2 A) (b : array2 B) : Prop :=
  shape0 a = shape0 b ∧ shape1 a = shape1 b.

(** Element-wise binary operators on arrays of one shape. numpy would
    broadcast arrays of different shapes when it can; that is left out and
    every mismatch is a [ValueError]. *)
Definition array_zip {A B C} (f : A → B → C) (a : array2 A) (b : array2 B)
    : result (array2 C) :=
  if decide (same_shape a b)
  then Ok (Array2 (shape1 a) (zip_with (zip_with f) (rows a) (rows b)))
  else Raise ValueError.

(** [a > threshold] *)
Definition array_gt (a : array2 Q) (threshold : Q) : array2 bool :=
  Array2 (shape1 a) ((λ row : list Q, (λ p, Qgtb p threshold) <$> row) <$> rows a).

(** [np.zeros_like(a, dtype=np.uint8)] *)
Definition zeros_like {A} (a : array2 A) : array2 bool :=
  Array2 (shape1 a) (replicate (shape0 a) (replicate (shape1 a) false)).

(** The number of ones in a row of a 0/1 matrix. *)
Definition count_ones (row : list bool) : nat :=
  length (filter Is_true row).

(** [mask[r, c]], read as 0 outside the array. *)
Definition mask_at (m : array2 bool) (r c : nat) : bool :=
  default false (row ← rows m !! r; row !! c).

(** ** [argsort(axis=1)]

    Indices of a row in ascending order of the values, by a stable insertion
    sort. numpy's default sort may order equal values differently; the
    theorems on [binarize_prediction] therefore hold for every [argsorted]
    whose rows are permutations of the column indices, this one included. *)
Fixpoint insert_index (key : nat → Q) (i : nat) (sorted : list nat) : list nat :=
  match sorted with
  | [] => [i]
  | j :: rest =>
      if Qle_bool (key i) (key j) then i :: sorted
      else j :: insert_index key i rest
  end.

Definition argsort_row (row : list Q) : list nat :=
  foldr (insert_index (λ i, default 0%Q (row !! i))) [] (seq 0 (length row)).

Definition argsort (a : array2 Q) : array2 nat :=
  Array2 (shape1 a) (argsort_row <$> rows a).

(** ** [_make_mask] *)

(** [row[-n:]]: the last [n] entries, the whole row when [n] exceeds its
    length, and also when [n = 0], since [-0] is [0]. *)
Definition last_n {A} (n : nat) (row : list A) : list A :=
  if decide (n = 0) then row else drop (length row - n) row.

(** [i // n] *)
Definition floordiv (i n : nat) : result nat :=
  if decide (n = 0) then Raise ZeroDivisionError else Ok (i / n).

(** [mask[r, c] = 1] for one index pair. *)
Definition assign_one (mask : array2 bool) (rc : nat * nat)
    : result (array2 bool) :=
  match rows mask !! rc.1 with
  | Some row =>
      if decide (rc.2 < shape1 mask)
      then Ok (Array2 (shape1 mask) (<[rc.1 := <[rc.2 := true]> row]> (rows mask)))
      else Raise IndexError
  | None => Raise IndexError
  end.

(** [mask[row_indices, col_indices] = 1] *)
Fixpoint assign_ones (mask : array2 bool) (idx : list (nat * nat))
    : result (array2 bool) :=
  match idx with
  | [] => Ok mask
  | rc :: idx' => mask' ← assign_one mask rc; assign_ones mask' idx'
  end.

(** <<
    def _make_mask(argsorted, top_n: int):
        mask = np.zeros_like(argsorted, dtype=np.uint8)
        col_indices = argsorted[:, -top_n:].reshape(-1)
        row_indices = [i // top_n for i in range(len(col_indices))]
        mask[row_indices, col_indices] = 1
        return mask
    >>
    [top_n] is a count and modelled as a [nat]. *)
Definition _make_mask (argsorted : array2 nat) (top_n : nat)
    : result (array2 bool) :=
  let mask := zeros_like argsorted in
  let col_indices := mjoin (last_n top_n <$> rows argsorted) in
  row_indices ← mapM (λ i, floordiv i top_n) (seq 0 (length col_indices));
  assign_ones mask (zip row_indices col_indices).

(** ** [binarize_prediction] *)

Section Binarize.

(** [N_CLASSES] is imported from [imet/dataset.py]. *)
Variable N_CLASSES : nat.

(** <<
    def binarize_prediction(probabilities, threshold: float, argsorted=None,
                            min_labels=1, max_labels=10):
        assert probabilities.shape[1] == N_CLASSES
        if argsorted is None:
            argsorted = probabilities.argsort(axis=1)
        max_mask = _make_mask(argsorted, max_labels)
        min_mask = _make_mask(argsorted, min_labels)
        prob_mask = probabilities > threshold
        return (max_mask & prob_mask) | min_mask
    >> *)
Definition binarize_prediction (probabilities : array2 Q) (threshold : Q)
    (argsorted : option (array2 nat)) (min_labels max_labels : nat)
    : result (array2 bool) :=
  if decide (shape1 probabilities = N_CLASSES) then
    let argsorted := default (argsort probabilities) argsorted in
    max_mask ← _make_mask argsorted max_labels;
    min_mask ← _make_mask argsorted min_labels;
    let prob_mask := array_gt probabilities threshold in
    masked ← array_zip andb max_mask prob_mask;
    array_zip orb masked min_mask
  else Raise AssertionError.

(** What the caller may pass as [argsorted]: nothing, or an index array of
    the shape of [probabilities] whose rows each list every column index
    once (as any argsort along axis 1 does). *)
Definition valid_argsorted (probabilities : array2 Q)
    (argsorted : option (array2 nat)) : Prop :=
  match argsorted with
  | None => True
  | Some a =>
      same_shape a probabilities
      ∧ Forall (λ r, r ≡ₚ seq 0 (shape1 probabilities)) (rows a)
  end.

End Binarize.

(** ** Learning-rate schedules: the closures [lr_func] of [train] *)

Inductive scheduler_kind : Set :=
  | SchedNone          (* 'none' *)
  | SchedOneCycle      (* 'one_cycle' *)
  | SchedLinear        (* 'linear' *)
  | SchedOther.        (* any other string: no [lr_func] gets defined *)

#[global] Instance scheduler_kind_eq_dec : EqDecision scheduler_kind.
Proof. solve_decision. Defined.

(** [slope = 0.9 / args.schedule_length]; the length is a Python int. *)
Definition slope_of (schedule_length : Z) : result Q :=
  if decide (schedule_length = 0%Z) then Raise ZeroDivisionError
  else Ok (0.9 / inject_Z schedule_length)%Q.

(** <<
    def lr_func(_):
        if step < args.schedule_length:
            return slope * step + 0.1
        elif step <= args.schedule_length * 2:
            return slope * (args.schedule_length - step) + 1
        else:
            return 0.1 * slope * (2 * args.schedule_length - step) + 0.1
    >>
    [step] is the variable of [train] the closure reads. *)
Definition lr_func_one_cycle (schedule_length : Z) (slope : Q) (step : Z) : Q :=
  if (step <? schedule_length)%Z then
    (slope * inject_Z step + 0.1)%Q
  else if (step <=? schedule_length * 2)%Z then
    (slope * inject_Z (schedule_length - step) + 1)%Q
  else
    (0.1 * slope * inject_Z (2 * schedule_length - step) + 0.1)%Q.

(** <<
    step_first = step
    def lr_func(_):
        return -slope * (step - step_first) + 1
    >> *)
Definition lr_func_linear (slope : Q) (step_first step : Z) : Q :=
  (- slope * inject_Z (step - step_first) + 1)%Q.

(** The [if args.scheduler != 'none':] block: the multiplier as a function of
    [step], or nothing when no scheduler is configured. *)
Definition make_lr_func (scheduler : scheduler_kind) (schedule_length : Z)
    (step : Z) : result (option (Z → Q)) :=
  match scheduler with
  | SchedNone => Ok None
  | SchedOneCycle =>
      slope ← slope_of schedule_length;
      Ok (Some (lr_func_one_cycle schedule_length slope))
  | SchedLinear =>
      slope ← slope_of schedule_length;
      let step_first := step in
      Ok (Some (lr_func_linear slope step_first))
  | SchedOther =>
      slope ← slope_of schedule_length;
      Raise UnboundLocalError
  end.

(** ** The training loop *)

(** [best_valid_loss] starts at [float('inf')]. *)
Inductive vloss : Type :=
  | Finite (q : Q)
  | Infinity.

(** [valid_loss < best_valid_loss] *)
Definition improves (valid_loss : Q) (best : vloss) : bool :=
  match best with
  | Finite b => Qltb valid_loss b
  | Infinity => true
  end.

(** [x > best_valid_loss] *)
Definition exceeds (x : Q) (best : vloss) : bool :=
  match best with
  | Finite b => Qgtb x b
  | Infinity => false
  end.

(** [min(l)], which raises on an empty list. *)
Definition list_min (l : list Q) : option Q :=
  match l with
  | [] => None
  | x :: l' => Some (foldr Qmin x l')
  end.

(** The fields of [args] that [train] reads. *)
Record train_args : Type := Args {
  args_lr : Q;
  args_n_epochs : Z;
  args_step : Z;                      (* batches per optimizer step *)
  args_scheduler : scheduler_kind;
  args_schedule_length : Z;
  args_metric_best_f2 : bool          (* [args.metric == 'best_f2'] *)
}.

(** What [torch.save] writes in [save], the model's weights apart. *)
Record checkpoint : Type := Checkpoint {
  ck_epoch : Z;
  ck_step : Z;
  ck_best_valid_loss : vloss
}.

(** What [validation] returns, as far as [train] reads it. *)
Record valid_metrics : Type := ValidMetrics {
  valid_max_f2 : Q;
  valid_loss : Q
}.

(** What happens in one epoch is given from outside: the batches the loader
    yields and the validation metrics, or the batches completed before a
    [KeyboardInterrupt] is raised inside the batch loop. *)
Inductive epoch_run : Type :=
  | Completes (batches : list batch) (metrics : valid_metrics)
  | KeyboardInterrupt (batches : list batch).

(** The loss [train] compares:
    <<
    if args.metric == 'best_f2':
        valid_loss = -valid_metrics['valid_max_f2']
    else:
        valid_loss = valid_metrics['valid_loss']
    >> *)
Definition effective_loss (args : train_args) (metrics : valid_metrics) : Q :=
  if args_metric_best_f2 args
  then (- valid_max_f2 metrics)%Q else valid_loss metrics.

Section Train.

(** The model parameters handed to [init_optimizer]. *)
Variable Params : Type.

Record optimizer_state : Type := Optimizer {
  opt_params : Params;
  opt_lr : Q;
  opt_steps : nat                     (* calls of [step()] since creation *)
}.

(** [init_optimizer(params, lr)] *)
Definition init_optimizer (params : Params) (lr : Q) : optimizer_state :=
  Optimizer params lr 0.

Inductive event : Type :=
  | BatchLoopStarted (epoch : Z)
  | Backward (arg : Q)
  | Saved (ck : checkpoint)
  | PromotedBest                          (* model.pt copied to best-model.pt *)
  | PatienceExceeded (epoch : Z) (lr_changes : nat)   (* [lr_changes += 1] *)
  | LrDecayed (epoch : Z) (lr : Q)        (* [lr /= 5], optimizer re-created *)
  | Interrupted (epoch : Z).

(** The local variables of [train], the two files it writes and the log of
    what it did, oldest event first. *)
Record train_state : Type := TrainState {
  step : Z;
  best_valid_loss : vloss;
  lr : Q;
  lr_changes : nat;
  lr_reset_epoch : Z;
  valid_losses : list Q;
  optimizer : optimizer_state;
  model_pt : option checkpoint;       (* run_root / 'model.pt' *)
  best_model_pt : option checkpoint;  (* run_root / 'best-model.pt' *)
  events : list event
}.

Definition log (ev : event) (s : train_state) : train_state :=
  TrainState (step s) (best_valid_loss s) (lr s) (lr_changes s)
    (lr_reset_epoch s) (valid_losses s) (optimizer s) (model_pt s)
    (best_model_pt s) (events s ++ [ev]).

(** <<
    save = lambda ep: torch.save({
        'model': model.state_dict(), 'epoch': ep,
        'step': step, 'best_valid_loss': best_valid_loss
    }, str(model_path))
    >>
    The lambda reads [step] and [best_valid_loss] when it is called. *)
Definition save (ep : Z) (s : train_state) : train_state :=
  let ck := Checkpoint ep (step s) (best_valid_loss s) in
  log (Saved ck)
    (TrainState (step s) (best_valid_loss s) (lr s) (lr_changes s)
       (lr_reset_epoch s) (valid_losses s) (optimizer s) (Some ck)
       (best_model_pt s) (events s)).

Section Loop.

Variable args : train_args.
Variable params : Params.
Variable patience : nat.
Variable max_lr_changes : nat.
(** [None] when no scheduler is configured. *)
Variable lr_func : option (Z → Q).

(** <<
    optimizer.step(); optimizer.zero_grad(); step += 1
    if args.scheduler != 'none':
        scheduler.step(); lr = optimizer.param_groups[0]['lr']
    >>
    [LambdaLR] sets the rate to the initial one times [lr_func]. *)
Definition optimizer_step (s : train_state) : train_state :=
  let step' := (step s + 1)%Z in
  let lr' := match lr_func with
             | Some f => (args_lr args * f step')%Q
             | None => lr s
             end in
  let o := optimizer s in
  TrainState step' (best_valid_loss s) lr' (lr_changes s) (lr_reset_epoch s)
    (valid_losses s) (Optimizer (opt_params o) lr' (S (opt_steps o)))
    (model_pt s) (best_model_pt s) (events s).

(** One pass of the body of [for i, (inputs, targets) in enumerate(tl)]. *)
Definition batch_iter (i : Z) (b : batch) (s : train_state)
    : result train_state :=
  let s := log (Backward (backward_arg b)) s in
  if decide (args_step args = 0%Z) then Raise ZeroDivisionError
  else if decide (((i + 1) mod args_step args)%Z = 0%Z) then Ok (optimizer_step s)
  else Ok s.

Fixpoint batch_loop (i : Z) (batches : list batch) (s : train_state)
    : result train_state :=
  match batches with
  | [] => Ok s
  | b :: rest => s' ← batch_iter i b s; batch_loop (i + 1)%Z rest s'
  end.

(** The condition of the [elif]:
    <<
    patience and epoch - lr_reset_epoch > patience and
    min(valid_losses[-patience:]) > best_valid_loss and
    args.scheduler == 'none'
    >>
    [valid_losses] holds this epoch's loss already, so the slice is not empty
    once [patience] is not 0. *)
Definition decay_due (epoch : Z) (s : train_state) : bool :=
  bool_decide (patience ≠ 0)
  && bool_decide (epoch - lr_reset_epoch s > Z.of_nat patience)%Z
  && from_option (λ m, exceeds m (best_valid_loss s)) false
       (list_min (last_n patience (valid_losses s)))
  && bool_decide (args_scheduler args = SchedNone).

Inductive outcome : Type :=
  | Continue (s : train_state)        (* on to the next epoch *)
  | Break (s : train_state)           (* [break]: the loop is left *)
  | Return (b : bool) (s : train_state).

(** The part of the [try] block after the batch loop. *)
Definition after_batches (epoch : Z) (metrics : valid_metrics)
    (s : train_state) : outcome :=
  let s := save (epoch + 1)%Z s in
  let v := effective_loss args metrics in
  let losses := valid_losses s ++ [v] in
  let s := TrainState (step s) (best_valid_loss s) (lr s) (lr_changes s)
             (lr_reset_epoch s) losses (optimizer s) (model_pt s)
             (best_model_pt s) (events s) in
  if improves v (best_valid_loss s) then
    Continue (log PromotedBest
      (TrainState (step s) (Finite v) (lr s) (lr_changes s)
         (lr_reset_epoch s) losses (optimizer s) (model_pt s)
         (model_pt s) (events s)))
  else if decay_due epoch s then
    let changes := S (lr_changes s) in
    let s := log (PatienceExceeded epoch changes)
               (TrainState (step s) (best_valid_loss s) (lr s) changes
                  (lr_reset_epoch s) losses (optimizer s) (model_pt s)
                  (best_model_pt s) (events s)) in
    if decide (max_lr_changes < changes) then Break s
    else
      let lr' := (lr s / 5)%Q in
      Continue (log (LrDecayed epoch lr')
        (TrainState (step s) (best_valid_loss s) lr' changes epoch losses
           (init_optimizer params lr') (model_pt s) (best_model_pt s)
           (events s)))
  else Continue s.

(** One pass of the body of [for epoch in range(epoch, n_epochs + 1)]. *)
Definition run_epoch (epoch : Z) (run : epoch_run) (s : train_state)
    : result outcome :=
  let s := log (BatchLoopStarted epoch) s in
  match run with
  | Completes batches metrics =>
      s' ← batch_loop 0%Z batches s;
      Ok (after_batches epoch metrics s')
  | KeyboardInterrupt batches =>
      s' ← batch_loop 0%Z batches s;
      Ok (Return false (save epoch (log (Interrupted epoch) s')))
  end.

(** The [for] loop over the epochs and the [return True] after it. *)
Fixpoint epochs_loop (env : Z → epoch_run) (epochs : list Z)
    (s : train_state) : result (bool * train_state) :=
  match epochs with
  | [] => Ok (true, s)
  | epoch :: rest =>
      o ← run_epoch epoch (env epoch) s;
      match o with
      | Continue s' => epochs_loop env rest s'
      | Break s' => Ok (true, s')
      | Return b s' => Ok (b, s')
      end
  end.

End Loop.

(** [range(first, last + 1)] *)
Definition epoch_range (first last : Z) : list Z :=
  (λ k, first + Z.of_nat k)%Z <$> seq 0 (Z.to_nat (last + 1 - first)).

(** <<
    def train(args, model, criterion, *, params, train_loader, valid_loader,
              init_optimizer, use_cuda, n_epochs=None, patience=2,
              max_lr_changes=2) -> bool:
    >>
    [existing] is the content of [model.pt] when the file exists; [env] says
    what happens in each epoch. [LambdaLR] sets the optimizer's rate to the
    initial one times [lr_func] when it is created. The result is the
    returned flag and the final state. *)
Definition train (args : train_args) (params : Params)
    (existing : option checkpoint) (env : Z → epoch_run)
    (n_epochs : option Z) (patience max_lr_changes : nat)
    : result (bool * train_state) :=
  let lr := args_lr args in
  let n_epochs :=
    match n_epochs with
    | Some n => if decide (n = 0%Z) then args_n_epochs args else n
    | None => args_n_epochs args
    end in
  let optimizer := init_optimizer params lr in
  let ck := default (Checkpoint 1 0 Infinity) existing in
  let epoch := ck_epoch ck in
  let step := ck_step ck in
  lr_func ← make_lr_func (args_scheduler args) (args_schedule_length args) step;
  let lr := match lr_func with
            | Some f => (lr * f step)%Q
            | None => lr
            end in
  let optimizer :=
    Optimizer (opt_params optimizer) lr (opt_steps optimizer) in
  let s := TrainState step (ck_best_valid_loss ck) lr 0 epoch []
             optimizer existing None [] in
  epochs_loop args params patience max_lr_changes lr_func env
    (epoch_range epoch n_epochs) s.

End Train.

Arguments train {Params}.
Arguments epochs_loop {Params}.
Arguments run_epoch {Params}.
Arguments after_batches {Params}.
Arguments batch_loop {Params}.
Arguments batch_iter {Params}.
Arguments optimizer_step {Params}.
Arguments decay_due {Params}.
Arguments save {Params}.
Arguments log {Params}.
Arguments init_optimizer {Params}.
Arguments TrainState {Params}.
Arguments Optimizer {Params}.
Arguments step {Params}.
Arguments best_valid_loss {Params}.
Arguments lr {Params}.
Arguments lr_changes {Params}.
Arguments lr_reset_epoch {Params}.
Arguments valid_losses {Params}.
Arguments optimizer {Params}.
Arguments model_pt {Params}.
Arguments best_model_pt {Params}.
Arguments events {Params}.
Arguments opt_params {Params}.
Arguments opt_lr {Params}.
Arguments opt_steps {Params}.
Arguments Continue {Params}.
Arguments Break {Params}.
Arguments Return {Params}.

(** The epochs in which a log records a rate decay, oldest first. *)
Definition decay_epochs (evs : list event) : list Z :=
  omap (λ ev, match ev with
              | LrDecayed epoch _ => Some epoch
              | _ => None
              end) evs.

(** The call in [validation]:
    <<
    argsorted = all_predictions.argsort(axis=1)
    ...
    binarize_prediction(all_predictions, threshold, argsorted)
    >>
    with the default [min_labels=1] and [max_labels=10]. *)
Definition validation_binarize (N_CLASSES : nat) (all_predictions : array2 Q)
    (threshold : Q) : result (array2 bool) :=
  binarize_prediction N_CLASSES all_predictions threshold
    (Some (argsort all_predictions)) 1 10.

(** ** transforms.py: [SquarePad] *)

(** <<
    def __call__(self, img):
        w, h = img.size
        extra = int((w-h) % 2)
        if w>h:
            padding=(0, (w-h)//2 + extra, 0, (w-h)//2)
        else:
            padding=((h-w)//2 + extra, 0, (h-w)//2, 0)
        return ImageOps.expand(img, padding)
    >>
    The border is (left, top, right, bottom); [%] and [//] round down, as
    [Z.modulo] and [Z.div] do. *)
Definition square_padding (w h : Z) : Z * Z * Z * Z :=
  let extra := ((w - h) mod 2)%Z in
  if (w >? h)%Z then (0, (w - h) / 2 + extra, 0, (w - h) / 2)%Z
  else ((h - w) / 2 + extra, 0, (h - w) / 2, 0)%Z.

(** The size of [ImageOps.expand(img, (left, top, right, bottom))]: PIL adds
    the border widths to the sides of the image. *)
Definition expand_size (size : Z * Z) (border : Z * Z * Z * Z) : Z * Z :=
  let '(pad_l, pad_t, pad_r, pad_b) := border in
  (pad_l + size.1 + pad_r, pad_t + size.2 + pad_b)%Z.

(** The size of [SquarePad()(img)] for an image of size [(w, h)]. *)
Definition SquarePad_size (size : Z * Z) : Z * Z :=
  expand_size size (square_padding size.1 size.2).

(** Row [ar] of an argsort lists the column indices of [prow] in ascending
    order of their probabilities. *)
Definition ascending (prow : list Q) (ar : list nat) : Prop :=
  StronglySorted
    (λ x y, (default 0%Q (prow !! x) <= default 0%Q (prow !! y))%Q) ar.

(** An [argsorted] argument that is an argsort of [probabilities] along
    axis 1, ties in any order. *)
Definition argsorted_ascending (probabilities : array2 Q)
    (argsorted : option (array2 nat)) : Prop :=
  match argsorted with
  | None => True
  | Some a => Forall2 ascending (rows probabilities) (rows a)
  end.

(** ** [validation] *)

(** [np.mean(l)]; on an empty list numpy gives nan, the quotient in [Q]
    is 0. *)
Definition np_mean (l : list Q) : Q := (Qsum l / Q_of_nat (length l))%Q.

(** The loss part of [validation]: one [_reduce_loss(loss).item()] per batch
    of the loader, and [metrics['valid_loss'] = np.mean(all_losses)]. *)
Definition validation_loss (batch_losses : list tensor) : Q :=
  np_mean (_reduce_loss <$> batch_losses).

Inductive loss_kind : Set :=
  | LossBce            (* 'bce' *)
  | LossFocal          (* 'focal' *)
  | LossOther.

(** <<
    if args.loss == 'bce':
        threshs = [0.05, 0.06, 0.07, 0.08, 0.09, 0.10, 0.11, 0.12]
    elif args.loss == 'focal':
        threshs = [0.20, 0.22, 0.24, 0.26, 0.28, 0.30, 0.32, 0.34]
    else:
        threshs = [0.05, 0.10, 0.15, 0.20, 0.25, 0.30, 0.35, 0.40]
    >> *)
Definition threshs (loss : loss_kind) : list Q :=
  match loss with
  | LossBce => [0.05; 0.06; 0.07; 0.08; 0.09; 0.10; 0.11; 0.12]%Q
  | LossFocal => [0.20; 0.22; 0.24; 0.26; 0.28; 0.30; 0.32; 0.34]%Q
  | LossOther => [0.05; 0.10; 0.15; 0.20; 0.25; 0.30; 0.35; 0.40]%Q
  end.

(** [max(l)], which raises on an empty sequence. *)
Definition list_max (l : list Q) : result Q :=
  match l with
  | [] => Raise ValueError
  | x :: l' => Ok (foldr Qmax x l')
  end.

(** The metric part of [validation], from the concatenated predictions on:
    <<
    argsorted = all_predictions.argsort(axis=1)
    for threshold in threshs:
        metrics[f'valid_f2_th_{threshold:.2f}'] = get_score(
            binarize_prediction(all_predictions, threshold, argsorted))
    metrics['valid_max_f2'] = max(metrics.values())
    metrics['valid_loss'] = np.mean(all_losses)
    >>
    [get_score] is sklearn's [fbeta_score] against the targets and is taken
    as given. The result lists the per-threshold scores (the thresholds
    print as different keys) and the two entries [train] reads. *)
Definition validation (N_CLASSES : nat) (loss : loss_kind)
    (get_score : array2 bool → Q) (all_predictions : array2 Q)
    (all_losses : list Q) : result (list (Q * Q) * valid_metrics) :=
  let argsorted := argsort all_predictions in
  scores ← mapM (λ threshold,
                   y_pred ← binarize_prediction N_CLASSES all_predictions
                              threshold (Some argsorted) 1 10;
                   Ok (threshold, get_score y_pred))
                (threshs loss);
  max_f2 ← list_max (scores.*2);
  Ok (scores, ValidMetrics max_f2 (np_mean all_losses)).

(** ** [main], mode 'train' *)

(** <<
    if args.pretrained and args.prev_model == 'none':
        if train(params=fresh_params, n_epochs=1, **train_kwargs):
            train(params=all_params, **train_kwargs)
    else:
        train(params=all_params, **train_kwargs)
    >>
    [train_kwargs] passes [patience=args.patience] and leaves
    [max_lr_changes] at 2. [existing] is [model.pt] in the run directory
    before the first call (copied from [--prev-model] when one is given); the
    second call finds the file as the first one left it. The result lists
    what each call returned. *)
Definition main_train {Params : Type} (args : train_args)
    (args_pretrained prev_model_none : bool) (args_patience : nat)
    (fresh_params all_params : Params) (existing : option checkpoint)
    (env : Z → epoch_run) : result (list (bool * train_state Params)) :=
  if args_pretrained && prev_model_none then
    train args fresh_params existing env (Some 1%Z) args_patience 2
    ≫= λ r1 : bool * train_state Params,
    if r1.1 then
      r2 ← train args all_params (model_pt r1.2) env None args_patience 2;
      Ok [r1; r2]
    else Ok [r1]
  else
    r ← train args all_params existing env None args_patience 2;
    Ok [r].

(** The epochs whose batch loop a log records, oldest first. *)
Definition started_epochs (evs : list event) : list Z :=
  omap (λ ev, match ev with
              | BatchLoopStarted epoch => Some epoch
              | _ => None
              end) evs.

(** [best_valid_loss <= q] *)
Definition best_le (best : vloss) (q : Q) : Prop :=
  match best with
  | Finite b => (b <= q)%Q
  | Infinity => False
  end.


(** The scheduler block of [train] raises nothing: no scheduler, or a known
    one with a schedule length other than 0. *)
Definition scheduler_ok (args : train_args) : Prop :=
  args_scheduler args = SchedNone
  ∨ (args_schedule_length args ≠ 0%Z ∧ args_scheduler args ≠ SchedOther).

(** ** Notions used in the statements and proofs *)

(** The rows [(mx & pr) | mn] the code builds, compared by their ones. *)
Definition combine_row (mx pr mn : list bool) : list bool :=
  zip_with orb (zip_with andb mx pr) mn.

(** What an [argsorted] array must satisfy for the index assignment to stay
    inside the mask. *)
Definition indices_in_range (a : array2 nat) : Prop :=
  Forall (Forall (λ c, c < shape1 a)) (rows a).

(** Every row lists each column index once. *)
Definition rows_are_permutations (a : array2 nat) : Prop :=
  Forall (λ r, r ≡ₚ seq 0 (shape1 a)) (rows a).

(** The log entries of the batch loop. *)
Definition is_backward (ev : event) : Prop := ∃ q, ev = Backward q.

(** Every [PatienceExceeded] entry of a log carries a counter of at most [n]. *)
Definition counters_le (n : nat) (evs : list event) : Prop :=
  Forall (λ ev, match ev with
                | PatienceExceeded _ k => k ≤ n
                | _ => True
                end) evs.

(** The state after [save(epoch + 1)] and [valid_losses.append(valid_loss)]. *)
Definition validated {Params : Type} (epoch : Z) (v : Q)
    (s : train_state Params) : train_state Params :=
  let ck := Checkpoint (epoch + 1) (step s) (best_valid_loss s) in
  TrainState (step s) (best_valid_loss s) (lr s) (lr_changes s)
    (lr_reset_epoch s) (valid_losses s ++ [v]) (optimizer s) (Some ck)
    (best_model_pt s) (events s ++ [Saved ck]).

(** While the loop goes on, at most [max_lr_changes] decay events were
    counted. *)
Definition within_limit {Params : Type} (max_lr_changes : nat)
    (s : train_state Params) : Prop :=
  lr_changes s ≤ max_lr_changes ∧ counters_le max_lr_changes (events s).

(** The loop was left by the [break]: the last thing that happened is the
    decay event number [max_lr_changes + 1], in epoch [epoch]. *)
Definition stopped_at {Params : Type} (max_lr_changes : nat) (epoch : Z)
    (s : train_state Params) : Prop :=
  lr_changes s = S max_lr_changes
  ∧ ∃ earlier, events s = earlier ++ [PatienceExceeded epoch (S max_lr_changes)]
      ∧ counters_le max_lr_changes earlier.

(** A run for the examples: every epoch has one batch of two examples and
    completes; its validation loss is read from a list, epoch 1 first, and
    is 5 past the end of the list. *)
Definition losses_env (losses : list Q) (epoch : Z) : epoch_run :=
  Completes [Batch 2 (Tensor1 [1; 2]%Q)]
    (ValidMetrics 0 (default 5%Q (losses !! Z.to_nat (epoch - 1)))).

(** * Proofs *)

(** ** Facts about sums *)

Lemma Qsum_scale (k : Q) (l : list Q) :
  (Qsum (Qmult k <$> l) == k * Qsum l)%Q.
Proof.
  induction l as [|x l IH]; simpl.
  - ring.
  - rewrite IH. ring.
Qed.

Lemma Qsum_const (c : Q) (l : list Q) :
  Forall (λ x, (x == c)%Q) l → (Qsum l == Q_of_nat (length l) * c)%Q.
Proof.
  unfold Q_of_nat. induction 1 as [|x l Hx _ IH].
  - simpl. ring.
  - cbn [Qsum foldr length]. fold (Qsum l). rewrite IH, Hx.
    rewrite Nat2Z.inj_succ, <- Z.add_1_r, inject_Z_plus. ring.
Qed.

Lemma Q_of_nat_nonzero (n : nat) : 1 ≤ n → ¬ (Q_of_nat n == 0)%Q.
Proof.
  intros Hn Hz. unfold Q_of_nat in Hz.
  assert (0 < inject_Z (Z.of_nat n))%Q; [|lra].
  rewrite <- (Zlt_Qlt 0). lia.
Qed.

(** ** [_reduce_loss] *)

(** C9. For a per-example loss vector of length B >= 1, [_reduce_loss]
    returns sum(loss) / B; doubling every element doubles the result, and a
    vector whose elements all equal c reduces to c. *)
Theorem reduce_loss_is_batch_mean (loss : list Q) :
  1 ≤ length loss →
  (_reduce_loss (Tensor1 loss) == Qsum loss / Q_of_nat (length loss))%Q
  ∧ (_reduce_loss (Tensor1 (Qmult 2 <$> loss))
       == 2 * _reduce_loss (Tensor1 loss))%Q
  ∧ ∀ c : Q, Forall (λ x, (x == c)%Q) loss →
      (_reduce_loss (Tensor1 loss) == c)%Q.
Proof.
  intros HB. pose proof (Q_of_nat_nonzero _ HB) as Hnz.
  unfold _reduce_loss. cbn [tensor_sum tensor_shape0].
  split; [reflexivity|]. split.
  - rewrite length_fmap, Qsum_scale. field. exact Hnz.
  - intros c Hc. rewrite (Qsum_const c loss Hc). field. exact Hnz.
Qed.

Lemma reduce_loss_is_batch_mean_witness :
  let loss := [0.5; 1.5; 4]%Q in
  (_reduce_loss (Tensor1 loss) == Qsum loss / Q_of_nat (length loss))%Q
  ∧ (_reduce_loss (Tensor1 (Qmult 2 <$> loss))
       == 2 * _reduce_loss (Tensor1 loss))%Q
  ∧ ∀ c : Q, Forall (λ x, (x == c)%Q) loss →
      (_reduce_loss (Tensor1 loss) == c)%Q.
Proof. apply (reduce_loss_is_batch_mean [0.5; 1.5; 4]%Q). simpl. lia. Defined.

(** C10. For a batch of size B >= 1 whose criterion value has one leading
    entry per example, the quantity handed to [backward] is B times the
    reduced loss, which is the un-normalised sum of the losses. *)
Theorem backward_arg_is_unnormalised_sum (b : batch) :
  1 ≤ inputs_size0 b →
  tensor_shape0 (criterion_out b) = inputs_size0 b →
  (backward_arg b == Q_of_nat (inputs_size0 b) * _reduce_loss (criterion_out b))%Q
  ∧ (backward_arg b == tensor_sum (criterion_out b))%Q.
Proof.
  intros HB Hshape. pose proof (Q_of_nat_nonzero _ HB) as Hnz.
  unfold backward_arg, batch_loss, _reduce_loss. cbn zeta.
  split; [reflexivity|].
  rewrite Hshape. field. exact Hnz.
Qed.

Lemma backward_arg_is_unnormalised_sum_witness :
  let b := Batch 2 (Tensor2 [[0.25; 0.5]; [1; 0.75]]%Q) in
  (backward_arg b == Q_of_nat (inputs_size0 b) * _reduce_loss (criterion_out b))%Q
  ∧ (backward_arg b == tensor_sum (criterion_out b))%Q.
Proof.
  apply (backward_arg_is_unnormalised_sum
           (Batch 2 (Tensor2 [[0.25; 0.5]; [1; 0.75]]%Q))).
  - simpl. lia.
  - reflexivity.
Defined.



(** ** Counting ones *)

Lemma count_ones_nil : count_ones [] = 0.
Proof. reflexivity. Qed.

Lemma count_ones_cons (b : bool) (row : list bool) :
  count_ones (b :: row) = (if b then 1 else 0) + count_ones row.
Proof.
  unfold count_ones. rewrite filter_cons.
  destruct b; case_decide; simpl in *; done.
Qed.

Lemma count_ones_le_length (row : list bool) : count_ones row ≤ length row.
Proof. unfold count_ones. apply length_filter. Qed.

Lemma count_ones_fmap {A} (f : A → bool) (l : list A) :
  count_ones (f <$> l) = length (filter (λ x, f x = true) l).
Proof.
  induction l as [|x l IH]; [done|].
  rewrite fmap_cons, count_ones_cons, filter_cons, IH.
  destruct (f x); destruct (decide _); simpl; congruence.
Qed.

Lemma combine_row_lower (mx pr mn : list bool) :
  length mn = length mx → length mn = length pr →
  count_ones mn ≤ count_ones (combine_row mx pr mn).
Proof.
  unfold combine_row. revert mx pr.
  induction mn as [|b mn IH]; intros [|x mx] [|p pr] ??; simplify_eq/=;
    try done.
  rewrite !count_ones_cons. specialize (IH mx pr).
  destruct b, x, p; simpl; lia.
Qed.

Lemma combine_row_upper (mx pr mn : list bool) :
  Forall2 (λ a b : bool, a → b) mn mx →
  count_ones (combine_row mx pr mn) ≤ count_ones mx.
Proof.
  unfold combine_row. intros H. revert pr.
  induction H as [|b x mn mx Hbx _ IH]; intros [|p pr]; simpl; try done.
  - rewrite count_ones_nil. lia.
  - rewrite !count_ones_cons. specialize (IH pr).
    destruct b, x, p; simpl in *; try lia; by exfalso.
Qed.

Lemma combine_row_mono (mx pr1 pr2 mn : list bool) :
  Forall2 (λ a b : bool, a → b) pr2 pr1 →
  count_ones (combine_row mx pr2 mn) ≤ count_ones (combine_row mx pr1 mn).
Proof.
  unfold combine_row. intros H. revert mx mn.
  induction H as [|p2 p1 pr2 pr1 Hp _ IH]; intros [|x mx] [|b mn]; simpl; try done.
  rewrite !count_ones_cons. specialize (IH mx mn).
  destruct b, x, p1, p2; simpl in *; try lia; by exfalso.
Qed.

Lemma combine_row_length (mx pr mn : list bool) (n : nat) :
  length mx = n → length pr = n → length mn = n →
  length (combine_row mx pr mn) = n.
Proof.
  intros. unfold combine_row. rewrite !length_zip_with. lia.
Qed.

(** A 0/1 row that marks the members of a duplicate-free index list has as
    many ones as the list has members. *)
Lemma count_ones_members (C : nat) (chunk : list nat) :
  NoDup chunk → (∀ c, c ∈ chunk → c < C) →
  count_ones ((λ c, bool_decide (c ∈ chunk)) <$> seq 0 C) = length chunk.
Proof.
  intros Hnd Hlt. rewrite count_ones_fmap.
  apply Permutation_length, NoDup_Permutation; [|done|].
  - apply NoDup_filter, NoDup_seq.
  - intros c. rewrite list_elem_of_filter, bool_decide_eq_true, elem_of_seq.
    split; [by intros [? _]|]. intros Hc. split; [done|].
    specialize (Hlt c Hc). lia.
Qed.

(** ** [_make_mask]: which entries are set *)

Lemma mapM_floordiv (n : nat) (l : list nat) :
  n ≠ 0 → mapM (λ i, floordiv i n) l = Ok ((λ i, i / n) <$> l).
Proof.
  intros Hn. induction l as [|i l IH]; [done|].
  cbn [mapM]. rewrite IH. unfold floordiv. by case_decide.
Qed.

Lemma zeros_like_spec {A} (a : array2 A) :
  wf_array2 (zeros_like a)
  ∧ shape0 (zeros_like a) = shape0 a
  ∧ shape1 (zeros_like a) = shape1 a
  ∧ ∀ r c, mask_at (zeros_like a) r c = false.
Proof.
  unfold wf_array2, shape0, zeros_like, mask_at. simpl.
  split_and!.
  - apply Forall_replicate. by rewrite length_replicate.
  - by rewrite length_replicate.
  - done.
  - intros r c. destruct (replicate _ _ !! r) as [row|] eqn:Hr; [|done].
    apply lookup_replicate in Hr as [-> _]. simpl.
    destruct (replicate _ _ !! c) as [b|] eqn:Hc; [|done].
    by apply lookup_replicate in Hc as [-> _].
Qed.

Lemma assign_one_spec (m : array2 bool) (r c : nat) :
  wf_array2 m → r < shape0 m → c < shape1 m →
  ∃ m', assign_one m (r, c) = Ok m'
    ∧ wf_array2 m' ∧ shape0 m' = shape0 m ∧ shape1 m' = shape1 m
    ∧ ∀ r' c', mask_at m' r' c'
               = bool_decide ((r', c') = (r, c)) || mask_at m r' c'.
Proof.
  intros Hwf Hr Hc. unfold assign_one. simpl.
  destruct (lookup_lt_is_Some_2 (rows m) r Hr) as [row Hrow].
  rewrite Hrow. rewrite decide_True by done.
  assert (length row = shape1 m) as Hlen.
  { by eapply (Forall_lookup_1 _ _ _ _ Hwf). }
  eexists. split; [done|]. unfold wf_array2, shape0, mask_at. simpl.
  split_and!.
  - apply Forall_insert; [done|]. by rewrite length_insert.
  - by rewrite length_insert.
  - done.
  - intros r' c'. rewrite list_lookup_insert.
    destruct (decide (r = r' ∧ r < length (rows m))) as [[-> _]|Hne].
    + simpl. rewrite Hrow. simpl. rewrite list_lookup_insert.
      destruct (decide (c = c' ∧ c < length row)) as [[-> _]|Hne'].
      * by rewrite bool_decide_eq_true_2.
      * rewrite bool_decide_eq_false_2; [done|]. intros [=]. lia.
    + rewrite bool_decide_eq_false_2; [done|]. intros [=]. unfold shape0 in Hr. lia.
Qed.

Lemma assign_ones_spec (idx : list (nat * nat)) (m : array2 bool) :
  wf_array2 m →
  Forall (λ rc, rc.1 < shape0 m ∧ rc.2 < shape1 m) idx →
  ∃ m', assign_ones m idx = Ok m'
    ∧ wf_array2 m' ∧ shape0 m' = shape0 m ∧ shape1 m' = shape1 m
    ∧ ∀ r c, mask_at m' r c = bool_decide ((r, c) ∈ idx) || mask_at m r c.
Proof.
  revert m. induction idx as [|[r c] idx IH]; intros m Hwf Hidx.
  - exists m. by split_and!.
  - apply Forall_cons in Hidx as [[Hr Hc] Hidx]. simpl in Hr, Hc.
    destruct (assign_one_spec m r c Hwf Hr Hc)
      as (m1 & Hm1 & Hwf1 & H0 & H1 & Hat1).
    destruct (IH m1 Hwf1) as (m' & Hm' & Hwf' & H0' & H1' & Hat').
    { by rewrite H0, H1. }
    exists m'. cbn [assign_ones]. rewrite Hm1. simpl. split_and!; try congruence.
    intros r' c'. rewrite Hat', Hat1.
    destruct (decide ((r', c') = (r, c))) as [->|Hne].
    + rewrite (bool_decide_eq_true_2 ((r, c) ∈ (r, c) :: idx)) by left.
      rewrite (bool_decide_eq_true_2 ((r, c) = (r, c))) by done.
      by rewrite orb_true_r.
    + rewrite (bool_decide_eq_false_2 ((r', c') = (r, c))) by done. simpl.
      f_equal. apply bool_decide_ext. rewrite elem_of_cons.
      split; [by right|]. by intros [?|?].
Qed.

Lemma last_n_length {A} (n : nat) (row : list A) :
  n ≠ 0 → length (last_n n row) = n `min` length row.
Proof. intros Hn. unfold last_n. rewrite decide_False, length_drop by done. lia. Qed.

Lemma last_n_elem_of {A} (n : nat) (row : list A) (x : A) :
  x ∈ last_n n row → x ∈ row.
Proof.
  unfold last_n. case_decide; [done|]. intros Hx.
  rewrite <- (take_drop (length row - n) row). apply elem_of_app. by right.
Qed.

Lemma last_n_NoDup {A} (n : nat) (row : list A) :
  NoDup row → NoDup (last_n n row).
Proof.
  unfold last_n. case_decide; [done|]. intros Hnd.
  rewrite <- (take_drop (length row - n) row) in Hnd.
  by apply NoDup_app in Hnd as (_ & _ & ?).
Qed.

Lemma last_n_mono {A} (i j : nat) (row : list A) (x : A) :
  1 ≤ i ≤ j → x ∈ last_n i row → x ∈ last_n j row.
Proof.
  intros Hij. unfold last_n. rewrite !decide_False by lia.
  replace (length row - i) with ((length row - j) + (j `min` length row - i)) by lia.
  rewrite <- drop_drop. intros Hx.
  rewrite <- (take_drop (j `min` length row - i) (drop (length row - j) row)).
  apply elem_of_app. by right.
Qed.

Lemma length_join_le {A} (ls : list (list A)) (n : nat) :
  Forall (λ l, length l ≤ n) ls → length (mjoin ls) ≤ length ls * n.
Proof.
  induction 1 as [|l ls Hl _ IH]; [done|].
  change (mjoin (l :: ls)) with (l ++ mjoin ls).
  rewrite length_app, length_cons. lia.
Qed.

(** With chunks of one length [n], position [i] of the flattened chunks
    belongs to chunk [i / n]: the pairing of row and column indices that
    [_make_mask] relies on. *)
Lemma elem_of_zip_div (n : nat) (chunks : list (list nat)) (r c : nat) :
  n ≠ 0 → Forall (λ l, length l = n) chunks →
  (r, c) ∈ zip ((λ i, i / n) <$> seq 0 (length (mjoin chunks))) (mjoin chunks)
  ↔ ∃ ch, chunks !! r = Some ch ∧ c ∈ ch.
Proof.
  intros Hn Hlen. split.
  - intros (i & x & y & [= -> ->] & Hx & Hy)%elem_of_lookup_zip_with.
    rewrite list_lookup_fmap in Hx.
    destruct (seq 0 _ !! i) as [i0|] eqn:Hi; simplify_eq/=.
    apply lookup_seq in Hi as [-> _]. simpl.
    apply (join_lookup_Some_same_length n) in Hy as (j & l & i' & Hl & Hc & ->);
      [|done].
    assert (i' < n).
    { rewrite <- (Forall_lookup_1 _ _ _ _ Hlen Hl). by eapply lookup_lt_Some. }
    exists l. split; [|by eapply list_elem_of_lookup_2].
    rewrite Nat.div_add_l, Nat.div_small, Nat.add_0_r by done. done.
  - intros (ch & Hch & (i' & Hi')%list_elem_of_lookup_1).
    assert (i' < n).
    { rewrite <- (Forall_lookup_1 _ _ _ _ Hlen Hch). by eapply lookup_lt_Some. }
    assert (mjoin chunks !! (r * n + i') = Some c) as Hj.
    { apply (join_lookup_Some_same_length' n); [done..|]. by exists ch. }
    apply elem_of_lookup_zip_with. exists (r * n + i'), r, c.
    split_and!; [done| |done].
    rewrite list_lookup_fmap.
    rewrite (proj2 (lookup_seq 0 _ (r * n + i') (r * n + i'))).
    + simpl. f_equal.
      rewrite Nat.div_add_l, Nat.div_small, Nat.add_0_r by done. done.
    + split; [done|]. by eapply lookup_lt_Some.
Qed.

(** For every [top_n >= 1] the mask is built without an exception, has the
    shape of [argsorted], and holds a one exactly at the paired indices. *)
Lemma make_mask_ok (a : array2 nat) (n : nat) :
  wf_array2 a → indices_in_range a → n ≠ 0 →
  ∃ m, _make_mask a n = Ok m
    ∧ wf_array2 m ∧ shape0 m = shape0 a ∧ shape1 m = shape1 a
    ∧ ∀ r c, mask_at m r c = bool_decide ((r, c) ∈
        zip ((λ i, i / n) <$> seq 0 (length (mjoin (last_n n <$> rows a))))
            (mjoin (last_n n <$> rows a))).
Proof.
  intros Hwf Hin Hn. unfold _make_mask. cbn zeta.
  rewrite mapM_floordiv by done. cbn [mbind result_bind].
  destruct (zeros_like_spec a) as (Hz & Hz0 & Hz1 & Hzat).
  destruct (assign_ones_spec
              (zip ((λ i, i / n) <$> seq 0 (length (mjoin (last_n n <$> rows a))))
                   (mjoin (last_n n <$> rows a)))
              (zeros_like a) Hz) as (m & Hm & Hwfm & H0 & H1 & Hat).
  - apply Forall_forall. intros [r c].
    intros (i & x & y & [= -> ->] & Hx & Hy)%elem_of_lookup_zip_with.
    rewrite Hz0, Hz1. simpl. split.
    + rewrite list_lookup_fmap in Hx.
      destruct (seq 0 _ !! i) as [i0|] eqn:Hi; simplify_eq/=.
      apply lookup_seq in Hi as [-> Hi]. simpl.
      apply Nat.Div0.div_lt_upper_bound.
      eapply Nat.lt_le_trans; [exact Hi|].
      etrans; [apply (length_join_le _ n)|].
      * apply Forall_fmap, Forall_true. intros l. simpl.
        rewrite last_n_length by done. lia.
      * rewrite length_fmap. unfold shape0. lia.
    + apply list_elem_of_lookup_2, list_elem_of_join in Hy as (l & Hy & Hl).
      apply list_elem_of_fmap in Hl as (ar & -> & Har).
      apply last_n_elem_of in Hy.
      unfold indices_in_range in Hin.
      rewrite Forall_forall in Hin. specialize (Hin ar Har).
      rewrite Forall_forall in Hin. by apply Hin.
  - exists m. split_and!; try congruence.
    intros r c. by rewrite Hat, Hzat, orb_false_r.
Qed.

(** ** Index arrays whose rows are permutations of the column indices *)

Lemma rows_are_permutations_wf (a : array2 nat) :
  rows_are_permutations a → wf_array2 a ∧ indices_in_range a.
Proof.
  intros Hp. split.
  - eapply Forall_impl; [exact Hp|]. intros r Hr. simpl.
    by rewrite Hr, length_seq.
  - eapply Forall_impl; [exact Hp|]. intros r Hr. simpl.
    apply Forall_forall. intros c Hc. rewrite Hr in Hc.
    apply elem_of_seq in Hc. lia.
Qed.

Lemma insert_index_perm (key : nat → Q) (i : nat) (sorted : list nat) :
  insert_index key i sorted ≡ₚ i :: sorted.
Proof.
  induction sorted as [|j rest IH]; [done|]. simpl.
  destruct (Qle_bool _ _); [done|]. rewrite IH. apply Permutation_swap.
Qed.

Lemma argsort_row_perm (row : list Q) : argsort_row row ≡ₚ seq 0 (length row).
Proof.
  unfold argsort_row. generalize (λ i, default 0%Q (row !! i)). intros key.
  induction (seq 0 (length row)) as [|i l IH]; [done|].
  simpl. by rewrite insert_index_perm, IH.
Qed.

Lemma argsort_perm (a : array2 Q) :
  wf_array2 a → rows_are_permutations (argsort a).
Proof.
  intros Hwf. unfold rows_are_permutations, argsort. simpl.
  apply Forall_fmap. eapply Forall_impl; [exact Hwf|].
  intros row Hrow. simpl. rewrite <- Hrow. apply argsort_row_perm.
Qed.

(** When [top_n] is between 1 and the number of columns, row [r] of the mask
    marks the last [top_n] entries of row [r] of [argsorted]. *)
Lemma make_mask_row (a : array2 nat) (n : nat) (m : array2 bool)
    (r : nat) (ar : list nat) (row : list bool) :
  rows_are_permutations a → 1 ≤ n ≤ shape1 a →
  _make_mask a n = Ok m →
  rows a !! r = Some ar → rows m !! r = Some row →
  row = (λ c, bool_decide (c ∈ last_n n ar)) <$> seq 0 (shape1 a).
Proof.
  intros Hp Hn Hm Har Hrow.
  destruct (rows_are_permutations_wf a Hp) as [Hwf Hin].
  destruct (make_mask_ok a n Hwf Hin) as (m' & Hm' & Hwfm & H0 & H1 & Hat);
    [lia|].
  rewrite Hm in Hm'. injection Hm' as <-.
  assert (length row = shape1 a) as Hlen.
  { rewrite <- H1. by eapply (Forall_lookup_1 _ _ _ _ Hwfm). }
  assert (Forall (λ l, length l = n) (last_n n <$> rows a)) as Hchunks.
  { apply Forall_fmap. eapply Forall_impl; [exact Hwf|]. intros l Hl. simpl in *.
    rewrite last_n_length by lia. lia. }
  apply list_eq. intros c. rewrite list_lookup_fmap.
  destruct (decide (c < shape1 a)) as [Hc|Hc].
  - rewrite (proj2 (lookup_seq 0 (shape1 a) c c)) by done. simpl.
    destruct (lookup_lt_is_Some_2 row c) as [b Hb]; [lia|].
    rewrite Hb. f_equal.
    specialize (Hat r c). unfold mask_at in Hat.
    rewrite Hrow in Hat. simpl in Hat. rewrite Hb in Hat. simpl in Hat.
    rewrite Hat. apply bool_decide_ext.
    rewrite (elem_of_zip_div n) by (done || lia).
    rewrite list_lookup_fmap, Har. simpl. split.
    + by intros (ch & [= <-] & ?).
    + intros ?. by eexists.
  - rewrite lookup_ge_None_2 by lia.
    rewrite lookup_ge_None_2; [done|]. rewrite length_seq. lia.
Qed.

Lemma make_mask_row_count (a : array2 nat) (n : nat) (m : array2 bool)
    (r : nat) (row : list bool) :
  rows_are_permutations a → 1 ≤ n ≤ shape1 a →
  _make_mask a n = Ok m → rows m !! r = Some row →
  count_ones row = n.
Proof.
  intros Hp Hn Hm Hrow.
  destruct (rows_are_permutations_wf a Hp) as [Hwf Hin].
  destruct (make_mask_ok a n Hwf Hin) as (m' & Hm' & Hwfm & H0 & H1 & Hat);
    [lia|].
  rewrite Hm in Hm'. injection Hm' as <-.
  destruct (lookup_lt_is_Some_2 (rows a) r) as [ar Har].
  { unfold shape0 in H0. rewrite <- H0. by eapply lookup_lt_Some. }
  pose proof (Forall_lookup_1 _ _ _ _ Hp Har) as Hperm. simpl in Hperm.
  rewrite (make_mask_row a n m r ar row) by done.
  rewrite count_ones_members.
  - rewrite last_n_length by lia. rewrite Hperm, length_seq. lia.
  - apply last_n_NoDup. rewrite Hperm. apply NoDup_seq.
  - intros c Hc%last_n_elem_of. rewrite Hperm in Hc.
    apply elem_of_seq in Hc. lia.
Qed.

(** ** [binarize_prediction]: the rows of the result *)

Lemma Qgtb_mono (p t1 t2 : Q) : (t1 <= t2)%Q → Qgtb p t2 → Qgtb p t1.
Proof.
  unfold Qgtb. intros Ht H2.
  destruct (Qle_bool p t1) eqn:H1; [|done].
  apply Qle_bool_iff in H1.
  assert (Qle_bool p t2 = true) as Hle.
  { apply Qle_bool_iff. by apply Qle_trans with t1. }
  by rewrite Hle in H2.
Qed.

Lemma valid_argsorted_perm (probabilities : array2 Q)
    (argsorted : option (array2 nat)) :
  wf_array2 probabilities → valid_argsorted probabilities argsorted →
  let a := default (argsort probabilities) argsorted in
  rows_are_permutations a ∧ same_shape a probabilities.
Proof.
  intros Hwf Hv. destruct argsorted as [a|]; simpl.
  - destruct Hv as [Hs Hp]. split; [|done].
    unfold rows_are_permutations. destruct Hs as [_ ->]. done.
  - split; [by apply argsort_perm|].
    unfold same_shape, shape0, argsort. simpl. by rewrite length_fmap.
Qed.

Section BinarizeRows.

Variable N_CLASSES : nat.
Variable probabilities : array2 Q.
Variable argsorted : option (array2 nat).
Variables min_labels max_labels : nat.

Hypothesis probabilities_wf : wf_array2 probabilities.
Hypothesis probabilities_shape : shape1 probabilities = N_CLASSES.
Hypothesis argsorted_valid : valid_argsorted probabilities argsorted.
Hypothesis min_labels_pos : 1 ≤ min_labels.
Hypothesis max_labels_pos : 1 ≤ max_labels.

(** The function returns, and each row of the result combines the rows of
    the two masks with the thresholded probabilities. *)
Lemma binarize_prediction_rows (threshold : Q) :
  let a := default (argsort probabilities) argsorted in
  ∃ max_mask min_mask out,
    _make_mask a max_labels = Ok max_mask
    ∧ _make_mask a min_labels = Ok min_mask
    ∧ binarize_prediction N_CLASSES probabilities threshold argsorted
        min_labels max_labels = Ok out
    ∧ shape0 out = shape0 probabilities
    ∧ shape1 out = shape1 probabilities
    ∧ ∀ r row, rows out !! r = Some row →
        ∃ mxr mnr prow,
          rows max_mask !! r = Some mxr
          ∧ rows min_mask !! r = Some mnr
          ∧ rows probabilities !! r = Some prow
          ∧ length mxr = N_CLASSES ∧ length mnr = N_CLASSES
          ∧ length prow = N_CLASSES
          ∧ row = combine_row mxr ((λ p, Qgtb p threshold) <$> prow) mnr.
Proof using All.
  intros a.
  destruct (valid_argsorted_perm _ _ probabilities_wf argsorted_valid)
    as [Hp [Hs0 Hs1]]. fold a in Hp, Hs0, Hs1.
  destruct (rows_are_permutations_wf a Hp) as [Hwf Hin].
  destruct (make_mask_ok a max_labels Hwf Hin)
    as (mx & Hmx & Hwfx & Hx0 & Hx1 & _); [lia|].
  destruct (make_mask_ok a min_labels Hwf Hin)
    as (mn & Hmn & Hwfn & Hn0 & Hn1 & _); [lia|].
  unfold binarize_prediction. rewrite decide_True by done.
  fold a. rewrite Hmx, Hmn. cbn [mbind result_bind].
  unfold array_zip at 2.
  rewrite decide_True; last first.
  { unfold same_shape, shape0, array_gt. simpl. rewrite length_fmap.
    unfold shape0 in *. split; congruence. }
  cbn [mbind result_bind]. unfold array_zip.
  rewrite decide_True; last first.
  { unfold same_shape, shape0, array_gt. simpl.
    rewrite length_zip_with, length_fmap. unfold shape0 in *. split; [lia|congruence]. }
  exists mx, mn. eexists. split_and!; try done.
  - unfold shape0 in *. simpl. rewrite !length_zip_with, length_fmap. lia.
  - simpl. congruence.
  - simpl. intros r row Hrow.
    apply lookup_zip_with_Some in Hrow as (t & mnr & -> & Ht & Hmnr).
    apply lookup_zip_with_Some in Ht as (mxr & pr & -> & Hmxr & Hpr).
    rewrite list_lookup_fmap in Hpr.
    destruct (rows probabilities !! r) as [prow|] eqn:Hprow; simplify_eq/=.
    exists mxr, mnr, prow. split_and!; try done.
    + rewrite (Forall_lookup_1 _ _ _ _ Hwfx Hmxr). congruence.
    + rewrite (Forall_lookup_1 _ _ _ _ Hwfn Hmnr). congruence.
    + by rewrite (Forall_lookup_1 _ _ _ _ probabilities_wf Hprow).
Qed.

End BinarizeRows.

(** A combined row never has more ones than [max_labels], as long as
    [min_labels] does not exceed it. *)
Lemma combine_row_at_most_max (a : array2 nat) (min_labels max_labels : nat)
    (max_mask min_mask : array2 bool) (r : nat) (mxr mnr pr : list bool) :
  rows_are_permutations a → 1 ≤ min_labels ≤ max_labels →
  _make_mask a max_labels = Ok max_mask →
  _make_mask a min_labels = Ok min_mask →
  rows max_mask !! r = Some mxr → rows min_mask !! r = Some mnr →
  length mxr = shape1 a → length mnr = shape1 a → length pr = shape1 a →
  count_ones (combine_row mxr pr mnr) ≤ max_labels.
Proof.
  intros Hp Hmm Hmx Hmn Hmxr Hmnr Hlx Hln Hlp.
  destruct (decide (max_labels ≤ shape1 a)) as [Hle|Hgt].
  - pose proof (make_mask_row_count a max_labels max_mask r mxr Hp
                  (conj (Nat.le_trans _ _ _ (proj1 Hmm) (proj2 Hmm)) Hle)
                  Hmx Hmxr) as Hcount.
    trans (count_ones mxr); [|lia].
    apply combine_row_upper.
    destruct (rows_are_permutations_wf a Hp) as [Hwf Hin].
    destruct (make_mask_ok a max_labels Hwf Hin)
      as (m' & Hm' & _ & H0 & _); [lia|].
    rewrite Hmx in Hm'. injection Hm' as <-.
    destruct (lookup_lt_is_Some_2 (rows a) r) as [ar Har].
    { unfold shape0 in H0. rewrite <- H0. by eapply lookup_lt_Some. }
    rewrite (make_mask_row a min_labels min_mask r ar mnr) by (done || lia).
    rewrite (make_mask_row a max_labels max_mask r ar mxr) by (done || lia).
    apply Forall2_fmap, Forall_Forall2_diag, Forall_true.
    intros c. rewrite !bool_decide_spec. by apply last_n_mono.
  - etrans; [apply count_ones_le_length|].
    rewrite (combine_row_length _ _ _ (shape1 a)) by done. lia.
Qed.

(** A combined row has at least [min_labels] ones when the array has that
    many columns. *)
Lemma combine_row_at_least_min (a : array2 nat) (min_labels : nat)
    (min_mask : array2 bool) (r : nat) (mxr mnr pr : list bool) :
  rows_are_permutations a → 1 ≤ min_labels ≤ shape1 a →
  _make_mask a min_labels = Ok min_mask →
  rows min_mask !! r = Some mnr →
  length mxr = shape1 a → length mnr = shape1 a → length pr = shape1 a →
  min_labels ≤ count_ones (combine_row mxr pr mnr).
Proof.
  intros Hp Hmin Hmn Hmnr Hlx Hln Hlp.
  pose proof (make_mask_row_count a min_labels min_mask r mnr Hp Hmin
                Hmn Hmnr) as Hcount.
  trans (count_ones mnr); [lia|].
  apply combine_row_lower; congruence.
Qed.

(** ** [binarize_prediction]: the number of labels per row *)

(** C1 (amended). For every probability matrix with [N_CLASSES] columns,
    every threshold and all [min_labels], [max_labels] with
    1 <= min_labels <= max_labels and min_labels <= N_CLASSES,
    [binarize_prediction] returns a matrix of the same shape each of whose
    rows contains between [min_labels] and [max_labels] ones. *)
Theorem binarize_prediction_row_bounds (N_CLASSES : nat)
    (probabilities : array2 Q) (threshold : Q)
    (argsorted : option (array2 nat)) (min_labels max_labels : nat) :
  wf_array2 probabilities →
  shape1 probabilities = N_CLASSES →
  valid_argsorted probabilities argsorted →
  1 ≤ min_labels ≤ max_labels →
  min_labels ≤ N_CLASSES →
  ∃ out,
    binarize_prediction N_CLASSES probabilities threshold argsorted
      min_labels max_labels = Ok out
    ∧ shape0 out = shape0 probabilities
    ∧ shape1 out = N_CLASSES
    ∧ Forall (λ row, min_labels ≤ count_ones row ≤ max_labels) (rows out).
Proof.
  intros Hwf Hshape Hv Hmm HminN.
  destruct (binarize_prediction_rows N_CLASSES probabilities argsorted
              min_labels max_labels Hwf Hshape Hv ltac:(lia) ltac:(lia)
              threshold)
    as (mx & mn & out & Hmx & Hmn & Hout & H0 & H1 & Hrows).
  destruct (valid_argsorted_perm _ _ Hwf Hv) as [Hp [_ Hs1]].
  exists out. split_and!; [done|done|congruence|].
  apply Forall_lookup. intros r row Hrow.
  destruct (Hrows r row Hrow)
    as (mxr & mnr & prow & Hmxr & Hmnr & Hprow & Lx & Ln & Lp & ->).
  split.
  - eapply (combine_row_at_least_min _ min_labels mn r); eauto;
      rewrite ?length_fmap; lia.
  - eapply (combine_row_at_most_max _ min_labels max_labels mx mn r); eauto;
      rewrite ?length_fmap; lia.
Qed.

Lemma binarize_prediction_row_bounds_witness :
  ∃ out,
    binarize_prediction 3
      (Array2 3 [[0.9; 0.2; 0.05]; [0.1; 0.1; 0.1]]%Q) 0.15%Q None 1 2 = Ok out
    ∧ shape0 out = 2
    ∧ shape1 out = 3
    ∧ Forall (λ row, 1 ≤ count_ones row ≤ 2) (rows out).
Proof.
  apply (binarize_prediction_row_bounds 3
           (Array2 3 [[0.9; 0.2; 0.05]; [0.1; 0.1; 0.1]]%Q) 0.15%Q None 1 2).
  - repeat constructor.
  - reflexivity.
  - exact I.
  - lia.
  - lia.
Defined.

(** C1 as stated fails when [min_labels] exceeds the number of classes: with
    three classes and min_labels = max_labels = 4 the only row gets three
    ones. *)
Lemma binarize_prediction_row_bounds_counterexample :
  let probabilities := Array2 3 [[0.9; 0.2; 0.05]]%Q in
  wf_array2 probabilities
  ∧ shape1 probabilities = 3
  ∧ 1 ≤ 4 ≤ 4
  ∧ binarize_prediction 3 probabilities 0.15%Q None 4 4
    = Ok (Array2 3 [[true; true; true]])
  ∧ ¬ ∃ out, binarize_prediction 3 probabilities 0.15%Q None 4 4 = Ok out
        ∧ Forall (λ row, 4 ≤ count_ones row ≤ 4) (rows out).
Proof.
  split_and!.
  - repeat constructor.
  - reflexivity.
  - lia.
  - lia.
  - vm_compute. reflexivity.
  - intros (out & Hout & Hall). vm_compute in Hout. injection Hout as <-.
    apply Forall_cons in Hall as [[Hlow _] _]. vm_compute in Hlow. lia.
Qed.

(** C2 (amended). For a fixed probability matrix and fixed
    [min_labels], [max_labels] >= 1, raising the threshold from t1 to t2
    never increases the number of ones in any row; and when
    min_labels <= max_labels that number is at most [max_labels] at every
    threshold. *)
Theorem binarize_prediction_threshold_monotone (N_CLASSES : nat)
    (probabilities : array2 Q) (t1 t2 : Q)
    (argsorted : option (array2 nat)) (min_labels max_labels : nat) :
  wf_array2 probabilities →
  shape1 probabilities = N_CLASSES →
  valid_argsorted probabilities argsorted →
  1 ≤ min_labels → 1 ≤ max_labels →
  (t1 <= t2)%Q →
  ∃ out1 out2,
    binarize_prediction N_CLASSES probabilities t1 argsorted
      min_labels max_labels = Ok out1
    ∧ binarize_prediction N_CLASSES probabilities t2 argsorted
        min_labels max_labels = Ok out2
    ∧ Forall2 (λ row1 row2, count_ones row2 ≤ count_ones row1)
        (rows out1) (rows out2)
    ∧ (min_labels ≤ max_labels →
       Forall (λ row, count_ones row ≤ max_labels) (rows out1)
       ∧ Forall (λ row, count_ones row ≤ max_labels) (rows out2)).
Proof.
  intros Hwf Hshape Hv Hmin Hmax Ht.
  destruct (binarize_prediction_rows N_CLASSES probabilities argsorted
              min_labels max_labels Hwf Hshape Hv Hmin Hmax t1)
    as (mx & mn & out1 & Hmx & Hmn & Hout1 & H10 & H11 & Hrows1).
  destruct (binarize_prediction_rows N_CLASSES probabilities argsorted
              min_labels max_labels Hwf Hshape Hv Hmin Hmax t2)
    as (mx' & mn' & out2 & Hmx' & Hmn' & Hout2 & H20 & H21 & Hrows2).
  rewrite Hmx in Hmx'. injection Hmx' as <-.
  rewrite Hmn in Hmn'. injection Hmn' as <-.
  destruct (valid_argsorted_perm _ _ Hwf Hv) as [Hp [_ Hs1]].
  exists out1, out2. split_and!; [done|done| |].
  - apply Forall2_same_length_lookup_2.
    { unfold shape0 in *. congruence. }
    intros r row1 row2 Hrow1 Hrow2.
    destruct (Hrows1 r row1 Hrow1)
      as (mxr & mnr & prow & Hmxr & Hmnr & Hprow & _ & _ & _ & ->).
    destruct (Hrows2 r row2 Hrow2)
      as (mxr' & mnr' & prow' & Hmxr' & Hmnr' & Hprow' & _ & _ & _ & ->).
    simplify_eq. apply combine_row_mono.
    apply Forall2_fmap, Forall_Forall2_diag, Forall_true.
    intros p. by apply Qgtb_mono.
  - intros Hmm. split.
    + apply Forall_lookup. intros r row Hrow.
      destruct (Hrows1 r row Hrow)
        as (mxr & mnr & prow & Hmxr & Hmnr & Hprow & Lx & Ln & Lp & ->).
      eapply (combine_row_at_most_max _ min_labels max_labels mx mn r); eauto;
        rewrite ?length_fmap; lia.
    + apply Forall_lookup. intros r row Hrow.
      destruct (Hrows2 r row Hrow)
        as (mxr & mnr & prow & Hmxr & Hmnr & Hprow & Lx & Ln & Lp & ->).
      eapply (combine_row_at_most_max _ min_labels max_labels mx mn r); eauto;
        rewrite ?length_fmap; lia.
Qed.

Lemma binarize_prediction_threshold_monotone_witness :
  ∃ out1 out2,
    binarize_prediction 3
      (Array2 3 [[0.9; 0.2; 0.05]; [0.1; 0.1; 0.1]]%Q) 0.15%Q None 1 2 = Ok out1
    ∧ binarize_prediction 3
        (Array2 3 [[0.9; 0.2; 0.05]; [0.1; 0.1; 0.1]]%Q) 0.5%Q None 1 2 = Ok out2
    ∧ Forall2 (λ row1 row2, count_ones row2 ≤ count_ones row1)
        (rows out1) (rows out2)
    ∧ (1 ≤ 2 →
       Forall (λ row, count_ones row ≤ 2) (rows out1)
       ∧ Forall (λ row, count_ones row ≤ 2) (rows out2)).
Proof.
  apply (binarize_prediction_threshold_monotone 3
           (Array2 3 [[0.9; 0.2; 0.05]; [0.1; 0.1; 0.1]]%Q) 0.15%Q 0.5%Q
           None 1 2).
  - repeat constructor.
  - reflexivity.
  - exact I.
  - lia.
  - lia.
  - unfold Qle. simpl. lia.
Defined.

(** C2 as stated fails for the bound when [min_labels] exceeds
    [max_labels]: with min_labels = 2 and max_labels = 1 the row gets two
    ones. *)
Lemma binarize_prediction_threshold_monotone_counterexample :
  let probabilities := Array2 3 [[0.9; 0.2; 0.05]]%Q in
  wf_array2 probabilities
  ∧ shape1 probabilities = 3
  ∧ binarize_prediction 3 probabilities 0.15%Q None 2 1
    = Ok (Array2 3 [[true; true; false]])
  ∧ count_ones [true; true; false] = 2
  ∧ ¬ ∃ out, binarize_prediction 3 probabilities 0.15%Q None 2 1 = Ok out
        ∧ Forall (λ row, count_ones row ≤ 1) (rows out).
Proof.
  split_and!.
  - repeat constructor.
  - reflexivity.
  - vm_compute. reflexivity.
  - reflexivity.
  - intros (out & Hout & Hall). vm_compute in Hout. injection Hout as <-.
    apply Forall_cons in Hall as [Hrow _]. vm_compute in Hrow. lia.
Qed.

(** ** The learning-rate multipliers *)

Lemma slope_of_ok (L : Z) :
  L ≠ 0%Z → slope_of L = Ok (0.9 / inject_Z L)%Q.
Proof. intros HL. unfold slope_of. by rewrite decide_False. Qed.

Lemma inject_Z_nonzero (L : Z) : L ≠ 0%Z → ¬ (inject_Z L == 0)%Q.
Proof.
  intros HL Hz. unfold Qeq in Hz. simpl in Hz. lia.
Qed.

(** C3. With the 'one_cycle' scheduler, schedule length L (not 0) and
    slope = 0.9/L, the multiplier at step s is slope*s + 0.1 when s < L,
    slope*(L-s) + 1 when L <= s <= 2L, and 0.1*slope*(2L-s) + 0.1
    otherwise; for a positive length it is 0.1 at step 0, 1 at step L and
    0.1 at step 2L. *)
Theorem one_cycle_multiplier (L step0 : Z) :
  L ≠ 0%Z →
  ∃ lr_func,
    make_lr_func SchedOneCycle L step0 = Ok (Some lr_func)
    ∧ let slope := (0.9 / inject_Z L)%Q in
      (∀ s : Z,
         ((s < L)%Z → (lr_func s == slope * inject_Z s + 0.1)%Q)
         ∧ ((L ≤ s ≤ 2 * L)%Z →
            (lr_func s == slope * (inject_Z L - inject_Z s) + 1)%Q)
         ∧ (¬ (s < L)%Z → ¬ (L ≤ s ≤ 2 * L)%Z →
            (lr_func s == 0.1 * slope * (2 * inject_Z L - inject_Z s) + 0.1)%Q))
      ∧ ((0 < L)%Z →
         (lr_func 0%Z == 0.1)%Q
         ∧ (lr_func L == 1)%Q
         ∧ (lr_func (2 * L)%Z == 0.1)%Q).
Proof.
  intros HL. pose proof (inject_Z_nonzero L HL) as HLq.
  eexists. split.
  { unfold make_lr_func. rewrite slope_of_ok by done. reflexivity. }
  cbn zeta. split.
  - intros s. unfold lr_func_one_cycle. split_and!.
    + intros Hs. rewrite (proj2 (Z.ltb_lt s L)) by done. reflexivity.
    + intros Hs. rewrite (proj2 (Z.ltb_ge s L)) by lia.
      rewrite (proj2 (Z.leb_le s (L * 2))) by lia.
      unfold Zminus. rewrite inject_Z_plus, inject_Z_opp. ring.
    + intros Hs1 Hs2. rewrite (proj2 (Z.ltb_ge s L)) by lia.
      rewrite (proj2 (Z.leb_gt s (L * 2))) by lia.
      unfold Zminus. rewrite inject_Z_plus, inject_Z_opp, inject_Z_mult. ring.
  - intros Hpos. unfold lr_func_one_cycle. split_and!.
    + rewrite (proj2 (Z.ltb_lt 0 L)) by done. ring.
    + rewrite Z.ltb_irrefl. rewrite (proj2 (Z.leb_le L (L * 2))) by lia.
      rewrite Z.sub_diag. ring.
    + rewrite (proj2 (Z.ltb_ge (2 * L) L)) by lia.
      rewrite (proj2 (Z.leb_le (2 * L) (L * 2))) by lia.
      replace (L - 2 * L)%Z with (- L)%Z by lia.
      rewrite inject_Z_opp. field. exact HLq.
Qed.

Lemma one_cycle_multiplier_witness :
  ∃ lr_func,
    make_lr_func SchedOneCycle 10 0 = Ok (Some lr_func)
    ∧ let slope := (0.9 / inject_Z 10)%Q in
      (∀ s : Z,
         ((s < 10)%Z → (lr_func s == slope * inject_Z s + 0.1)%Q)
         ∧ ((10 ≤ s ≤ 2 * 10)%Z →
            (lr_func s == slope * (inject_Z 10 - inject_Z s) + 1)%Q)
         ∧ (¬ (s < 10)%Z → ¬ (10 ≤ s ≤ 2 * 10)%Z →
            (lr_func s == 0.1 * slope * (2 * inject_Z 10 - inject_Z s) + 0.1)%Q))
      ∧ ((0 < 10)%Z →
         (lr_func 0%Z == 0.1)%Q
         ∧ (lr_func 10%Z == 1)%Q
         ∧ (lr_func (2 * 10)%Z == 0.1)%Q).
Proof. apply (one_cycle_multiplier 10 0). lia. Defined.

Lemma Q_ge_neg_abs_num (B : Q) : (inject_Z (- Z.abs (Qnum B)) <= B)%Q.
Proof.
  destruct B as [n d]. unfold Qle. simpl.
  rewrite Z.mul_1_r. nia.
Qed.

(** C4 (amended). With the 'linear' scheduler, schedule length L > 0 and
    slope = 0.9/L, the multiplier is 1 at the step where the policy was
    instantiated and goes down by [slope] with every step; after L further
    steps it is 0.1, it is 0 exactly when 9k = 10L steps have passed, and it
    is not bounded below: it is negative once 9k > 10L. *)
Theorem linear_multiplier (L step_first : Z) :
  (0 < L)%Z →
  ∃ lr_func,
    make_lr_func SchedLinear L step_first = Ok (Some lr_func)
    ∧ let slope := (0.9 / inject_Z L)%Q in
      (lr_func step_first == 1)%Q
      ∧ (∀ s : Z, (lr_func (s + 1)%Z == lr_func s - slope)%Q)
      ∧ (∀ s s' : Z, (s < s')%Z → (lr_func s' < lr_func s)%Q)
      ∧ (lr_func (step_first + L)%Z == 0.1)%Q
      ∧ (∀ k : Z, (lr_func (step_first + k)%Z == 0)%Q ↔ (9 * k = 10 * L)%Z)
      ∧ (∀ k : Z, (10 * L < 9 * k)%Z → (lr_func (step_first + k)%Z < 0)%Q)
      ∧ (∀ B : Q, ∃ s : Z, (step_first ≤ s)%Z ∧ (lr_func s < B)%Q).
Proof.
  intros Hpos.
  assert (L ≠ 0%Z) as HL by lia.
  pose proof (inject_Z_nonzero L HL) as HLq.
  assert (0 < inject_Z L)%Q as HLpos by (rewrite <- (Zlt_Qlt 0); lia).
  assert (0 < 0.9 / inject_Z L)%Q as Hslope.
  { apply Qlt_shift_div_l; [done|]. lra. }
  assert (∀ k : Z,
            (lr_func_linear (0.9 / inject_Z L) step_first (step_first + k)
             == 1 - 0.9 * inject_Z k / inject_Z L)%Q) as Hat.
  { intros k. unfold lr_func_linear.
    replace (step_first + k - step_first)%Z with k by lia. by field. }
  eexists. split.
  { unfold make_lr_func. rewrite slope_of_ok by done. reflexivity. }
  cbn zeta. split_and!.
  - unfold lr_func_linear. rewrite Z.sub_diag. ring.
  - intros s. unfold lr_func_linear.
    replace (s + 1 - step_first)%Z with ((s - step_first) + 1)%Z by lia.
    rewrite inject_Z_plus. ring.
  - intros s s' Hs. unfold lr_func_linear.
    assert (inject_Z (s - step_first) < inject_Z (s' - step_first))%Q as Hlt.
    { rewrite <- Zlt_Qlt. lia. }
    assert (0.9 / inject_Z L * inject_Z (s - step_first)
            < 0.9 / inject_Z L * inject_Z (s' - step_first))%Q.
    { rewrite !(Qmult_comm (0.9 / inject_Z L)). by apply Qmult_lt_compat_r. }
    lra.
  - rewrite Hat. by field.
  - intros k. rewrite Hat. split.
    + intros Hz.
      assert (9 * inject_Z k == 10 * inject_Z L)%Q as Hq.
      { assert (0.9 * inject_Z k / inject_Z L == 1)%Q as H1 by lra.
        assert (0.9 * inject_Z k == inject_Z L)%Q as H2.
        { rewrite <- (Qmult_1_l (inject_Z L)), <- H1. by field. }
        lra. }
      change 9%Q with (inject_Z 9) in Hq. change 10%Q with (inject_Z 10) in Hq.
      rewrite <- !inject_Z_mult in Hq. unfold Qeq in Hq. simpl in Hq. lia.
    + intros Hk.
      assert (9 * inject_Z k == 10 * inject_Z L)%Q as Hq.
      { change 9%Q with (inject_Z 9). change 10%Q with (inject_Z 10).
        rewrite <- !inject_Z_mult. by rewrite Hk. }
      assert (0.9 * inject_Z k == inject_Z L)%Q as -> by lra.
      by field.
  - intros k Hk. rewrite Hat.
    assert (10 * inject_Z L < 9 * inject_Z k)%Q as Hq.
    { change 9%Q with (inject_Z 9). change 10%Q with (inject_Z 10).
      rewrite <- !inject_Z_mult, <- Zlt_Qlt. done. }
    assert (1 < 0.9 * inject_Z k / inject_Z L)%Q; [|lra].
    apply Qlt_shift_div_l; [done|]. lra.
  - intros B. exists (step_first + L * (2 * (Z.abs (Qnum B) + 1)))%Z. split.
    + nia.
    + rewrite Hat. pose proof (Q_ge_neg_abs_num B) as HB.
      rewrite inject_Z_opp in HB.
      rewrite !inject_Z_mult, inject_Z_plus.
      assert (0 <= inject_Z (Z.abs (Qnum B)))%Q as Habs.
      { rewrite <- (Zle_Qle 0). lia. }
      assert (0.9 * (inject_Z L * (inject_Z 2 * (inject_Z (Z.abs (Qnum B)) + inject_Z 1)))
                / inject_Z L
              == 1.8 * (inject_Z (Z.abs (Qnum B)) + 1))%Q as ->.
      { change (inject_Z 2) with 2%Q. change (inject_Z 1) with 1%Q. by field. }
      lra.
Qed.

Lemma linear_multiplier_witness :
  ∃ lr_func,
    make_lr_func SchedLinear 10 5 = Ok (Some lr_func)
    ∧ let slope := (0.9 / inject_Z 10)%Q in
      (lr_func 5%Z == 1)%Q
      ∧ (∀ s : Z, (lr_func (s + 1)%Z == lr_func s - slope)%Q)
      ∧ (∀ s s' : Z, (s < s')%Z → (lr_func s' < lr_func s)%Q)
      ∧ (lr_func (5 + 10)%Z == 0.1)%Q
      ∧ (∀ k : Z, (lr_func (5 + k)%Z == 0)%Q ↔ (9 * k = 10 * 10)%Z)
      ∧ (∀ k : Z, (10 * 10 < 9 * k)%Z → (lr_func (5 + k)%Z < 0)%Q)
      ∧ (∀ B : Q, ∃ s : Z, (5 ≤ s)%Z ∧ (lr_func s < B)%Q).
Proof. apply (linear_multiplier 10 5). lia. Defined.

(** C4 as stated fails: with L = 10 the multiplier L steps after the start is
    0.1, not 0. *)
Lemma linear_multiplier_counterexample :
  ∃ lr_func,
    make_lr_func SchedLinear 10 0 = Ok (Some lr_func)
    ∧ (lr_func 0%Z == 1)%Q
    ∧ (lr_func (0 + 10)%Z == 0.1)%Q
    ∧ ¬ (lr_func (0 + 10)%Z == 0)%Q.
Proof.
  eexists. split; [vm_compute; reflexivity|].
  split_and!; vm_compute; congruence.
Qed.

(** ** The training loop: what the batch loop leaves untouched *)

Lemma decay_epochs_app (evs evs' : list event) :
  decay_epochs (evs ++ evs') = decay_epochs evs ++ decay_epochs evs'.
Proof. apply omap_app. Qed.

Lemma decay_epochs_backward (evs : list event) :
  Forall is_backward evs → decay_epochs evs = [].
Proof.
  induction 1 as [|ev evs [q ->] _ IH]; [done|].
  exact IH.
Qed.

Lemma counters_le_backward (n : nat) (evs : list event) :
  Forall is_backward evs → counters_le n evs.
Proof.
  unfold counters_le. intros Hb.
  eapply Forall_impl; [exact Hb|]. by intros ev [q ->].
Qed.

Section LoopFacts.

Context {Params : Type}.
Variable args : train_args.
Variable lr_func : option (Z → Q).

Lemma batch_loop_frame (batches : list batch) (i : Z)
    (s s' : train_state Params) :
  batch_loop args lr_func i batches s = Ok s' →
  best_valid_loss s' = best_valid_loss s
  ∧ lr_changes s' = lr_changes s
  ∧ lr_reset_epoch s' = lr_reset_epoch s
  ∧ valid_losses s' = valid_losses s
  ∧ model_pt s' = model_pt s
  ∧ best_model_pt s' = best_model_pt s
  ∧ opt_params (optimizer s') = opt_params (optimizer s)
  ∧ (lr_func = None → lr s' = lr s)
  ∧ ∃ evs, events s' = events s ++ evs ∧ Forall is_backward evs.
Proof.
  revert i s. induction batches as [|b rest IH]; intros i s Hloop.
  - injection Hloop as <-. split_and!; try done.
    exists []. by rewrite app_nil_r.
  - cbn [batch_loop] in Hloop. unfold batch_iter in Hloop.
    destruct (decide (args_step args = 0%Z)); [done|].
    destruct (decide (((i + 1) `mod` args_step args)%Z = 0%Z));
      cbn [mbind result_bind] in Hloop;
      apply IH in Hloop
        as (Hb & Hc & Hr & Hv & Hm & Hbm & Hp & Hlr & evs & Hev & Hback);
      unfold optimizer_step, log in *; simpl in *;
      split_and!; try done;
      try (intros ->; by rewrite Hlr);
      (exists (Backward (backward_arg b) :: evs);
       split; [by rewrite Hev, <- app_assoc
              |constructor; [by eexists|done]]).
Qed.

Lemma batch_loop_total (batches : list batch) (i : Z)
    (s : train_state Params) :
  args_step args ≠ 0%Z → ∃ s', batch_loop args lr_func i batches s = Ok s'.
Proof.
  intros Hstep. revert i s. induction batches as [|b rest IH]; intros i s.
  - by eexists.
  - cbn [batch_loop]. unfold batch_iter. rewrite decide_False by done.
    case_decide; cbn [mbind result_bind]; apply IH.
Qed.

End LoopFacts.

(** ** The training loop: the end of an epoch *)

Lemma improves_false (v best : Q) :
  (best <= v)%Q → improves v (Finite best) = false.
Proof.
  intros Hle. unfold improves, Qltb.
  by rewrite (proj2 (Qle_bool_iff best v) Hle).
Qed.

Lemma exceeds_true (x best : Q) :
  (best < x)%Q → exceeds x (Finite best) = true.
Proof.
  intros Hlt. unfold exceeds, Qgtb.
  destruct (Qle_bool x best) eqn:Hle; [|done].
  apply Qle_bool_iff in Hle. lra.
Qed.

Lemma last_n_snoc2 {A} (l : list A) (a b : A) :
  last_n 2 ((l ++ [a]) ++ [b]) = [a; b].
Proof.
  unfold last_n. rewrite decide_False by done.
  rewrite <- app_assoc. simpl.
  rewrite length_app. simpl.
  replace (length l + 2 - 2) with (length l) by lia.
  by rewrite drop_app_length.
Qed.

Section EpochFacts.

Context {Params : Type}.
Variable args : train_args.
Variable params : Params.
Variable patience : nat.
Variable max_lr_changes : nat.

Lemma after_batches_cases (epoch : Z) (metrics : valid_metrics)
    (s : train_state Params) :
  let v := effective_loss args metrics in
  let s1 := validated epoch v s in
  after_batches args params patience max_lr_changes epoch metrics s =
    if improves v (best_valid_loss s) then
      Continue (log PromotedBest
        (TrainState (step s1) (Finite v) (lr s1) (lr_changes s1)
           (lr_reset_epoch s1) (valid_losses s1) (optimizer s1) (model_pt s1)
           (model_pt s1) (events s1)))
    else if decay_due args patience epoch s1 then
      let s2 := log (PatienceExceeded epoch (S (lr_changes s)))
                  (TrainState (step s1) (best_valid_loss s1) (lr s1)
                     (S (lr_changes s)) (lr_reset_epoch s1) (valid_losses s1)
                     (optimizer s1) (model_pt s1) (best_model_pt s1)
                     (events s1)) in
      if decide (max_lr_changes < S (lr_changes s)) then Break s2
      else
        Continue (log (LrDecayed epoch (lr s / 5)%Q)
          (TrainState (step s2) (best_valid_loss s2) (lr s / 5)%Q
             (S (lr_changes s)) epoch (valid_losses s2)
             (init_optimizer params (lr s / 5)%Q) (model_pt s2)
             (best_model_pt s2) (events s2)))
    else Continue s1.
Proof. reflexivity. Qed.

Lemma decay_due_early (epoch : Z) (s : train_state Params) :
  (epoch - lr_reset_epoch s ≤ Z.of_nat patience)%Z →
  decay_due args patience epoch s = false.
Proof.
  intros Hle. unfold decay_due.
  rewrite (bool_decide_eq_false_2 (_ > _)%Z) by lia.
  by rewrite andb_false_r.
Qed.

End EpochFacts.

Section PatienceFacts.

Context {Params : Type}.
Variable args : train_args.
Variable params : Params.
Variable patience : nat.
Variable max_lr_changes : nat.

Hypothesis args_step_nonzero : args_step args ≠ 0%Z.

(** An epoch that neither improves the best loss nor comes late enough
    after the last rate change leaves the rate alone. *)
Lemma run_epoch_quiet (epoch : Z) (batches : list batch)
    (metrics : valid_metrics) (s : train_state Params) (best : Q) :
  best_valid_loss s = Finite best →
  (best <= effective_loss args metrics)%Q →
  (epoch - lr_reset_epoch s ≤ Z.of_nat patience)%Z →
  ∃ s',
    run_epoch args params patience max_lr_changes None epoch
      (Completes batches metrics) s = Ok (Continue s')
    ∧ best_valid_loss s' = Finite best
    ∧ lr s' = lr s
    ∧ lr_changes s' = lr_changes s
    ∧ lr_reset_epoch s' = lr_reset_epoch s
    ∧ valid_losses s' = valid_losses s ++ [effective_loss args metrics]
    ∧ opt_params (optimizer s') = opt_params (optimizer s)
    ∧ decay_epochs (events s') = decay_epochs (events s).
Proof using args_step_nonzero.
  intros Hbest Hv Hearly. unfold run_epoch.
  destruct (batch_loop_total args None batches 0 (log (BatchLoopStarted epoch) s)
              args_step_nonzero) as [sb Hsb].
  rewrite Hsb. cbn [mbind result_bind].
  apply batch_loop_frame in Hsb
    as (Hb & Hc & Hr & Hl & _ & _ & Hp & Hlr & evs & Hev & Hback).
  specialize (Hlr eq_refl). simpl in *.
  rewrite after_batches_cases. cbn zeta.
  rewrite Hb, Hbest, improves_false by done.
  rewrite decay_due_early by (simpl; lia).
  eexists. split; [done|]. simpl. split_and!; try congruence.
  rewrite Hev, !decay_epochs_app, (decay_epochs_backward evs Hback).
  simpl. by rewrite !app_nil_r.
Qed.

(** An epoch that does not improve the best loss, comes more than
    [patience] epochs after the last rate change and closes a window of
    losses above the best one counts a decay event. *)
Lemma run_epoch_patience (epoch : Z) (batches : list batch)
    (metrics : valid_metrics) (s : train_state Params) (best window_min : Q) :
  args_scheduler args = SchedNone →
  patience ≠ 0 →
  best_valid_loss s = Finite best →
  (best <= effective_loss args metrics)%Q →
  (epoch - lr_reset_epoch s > Z.of_nat patience)%Z →
  list_min (last_n patience (valid_losses s ++ [effective_loss args metrics]))
    = Some window_min →
  (best < window_min)%Q →
  ∃ sb s',
    batch_loop args None 0 batches (log (BatchLoopStarted epoch) s) = Ok sb
    ∧ run_epoch args params patience max_lr_changes None epoch
        (Completes batches metrics) s
      = Ok (if decide (max_lr_changes < S (lr_changes s))
            then Break s' else
              Continue (log (LrDecayed epoch (lr s / 5)%Q)
                (TrainState (step s') (best_valid_loss s') (lr s / 5)%Q
                   (S (lr_changes s)) epoch (valid_losses s')
                   (init_optimizer params (lr s / 5)%Q) (model_pt s')
                   (best_model_pt s') (events s'))))
    ∧ best_valid_loss s' = Finite best
    ∧ lr s' = lr s
    ∧ lr_changes s' = S (lr_changes s)
    ∧ valid_losses s' = valid_losses s ++ [effective_loss args metrics]
    ∧ decay_epochs (events s') = decay_epochs (events s)
    ∧ last (events s') = Some (PatienceExceeded epoch (S (lr_changes s))).
Proof using args_step_nonzero.
  intros Hsched Hpat Hbest Hv Hlate Hmin Hwin. unfold run_epoch.
  destruct (batch_loop_total args None batches 0 (log (BatchLoopStarted epoch) s)
              args_step_nonzero) as [sb Hsb].
  exists sb. rewrite Hsb. cbn [mbind result_bind].
  apply batch_loop_frame in Hsb
    as (Hb & Hc & Hr & Hl & _ & _ & Hp & Hlr & evs & Hev & Hback).
  specialize (Hlr eq_refl). simpl in *.
  rewrite after_batches_cases. cbn zeta.
  rewrite Hb, Hbest, improves_false by done.
  assert (decay_due args patience epoch
            (validated epoch (effective_loss args metrics) sb) = true) as ->.
  { unfold decay_due, validated.
    cbn [lr_reset_epoch valid_losses best_valid_loss].
    rewrite Hr, Hl, Hmin, Hb, Hbest. cbn [from_option log lr_reset_epoch].
    rewrite exceeds_true by done.
    rewrite !bool_decide_eq_true_2 by done. done. }
  rewrite Hc, Hlr. eexists. split; [done|]. split; [reflexivity|].
  simpl. split_and!; try congruence.
  - rewrite Hev, !decay_epochs_app, (decay_epochs_backward evs Hback).
    simpl. by rewrite !app_nil_r.
  - by rewrite last_snoc.
Qed.

End PatienceFacts.

(** ** Patience-based decay *)

(** C5 (amended). With patience = 2 and no scheduler, when the three epochs
    that directly follow [lr_reset_epoch] (the first epoch of the run or the
    epoch of the last rate change) all fail to improve on the best loss, the
    last two being strictly above it, and fewer than [max_lr_changes] decay
    events were counted so far, the loop performs exactly one rate decay, in
    the third of these epochs: the rate is divided by 5, a fresh optimizer
    is created over the same parameters and [lr_changes] goes up by one
    (to 1 in a run without an earlier decay). *)
Theorem patience_decay_on_third_epoch {Params : Type} (args : train_args)
    (params : Params) (max_lr_changes : nat) (env : Z → epoch_run)
    (e : Z) (s : train_state Params) (best : Q)
    (b1 b2 b3 : list batch) (m1 m2 m3 : valid_metrics) :
  args_scheduler args = SchedNone →
  args_step args ≠ 0%Z →
  lr_reset_epoch s = e →
  best_valid_loss s = Finite best →
  lr_changes s < max_lr_changes →
  env (e + 1)%Z = Completes b1 m1 →
  env (e + 2)%Z = Completes b2 m2 →
  env (e + 3)%Z = Completes b3 m3 →
  (best <= effective_loss args m1)%Q →
  (best < effective_loss args m2)%Q →
  (best < effective_loss args m3)%Q →
  ∃ s2 s3,
    epochs_loop args params 2 max_lr_changes None env
      [e + 1; e + 2]%Z s = Ok (true, s2)
    ∧ epochs_loop args params 2 max_lr_changes None env
        [e + 1; e + 2; e + 3]%Z s = Ok (true, s3)
    ∧ lr s2 = lr s
    ∧ lr_changes s2 = lr_changes s
    ∧ decay_epochs (events s2) = decay_epochs (events s)
    ∧ lr s3 = (lr s / 5)%Q
    ∧ lr_changes s3 = S (lr_changes s)
    ∧ decay_epochs (events s3) = decay_epochs (events s) ++ [(e + 3)%Z]
    ∧ optimizer s3 = init_optimizer params (lr s / 5)%Q
    ∧ last (events s3) = Some (LrDecayed (e + 3) (lr s / 5)%Q).
Proof.
  intros Hsched Hstep Hreset Hbest Hchanges Henv1 Henv2 Henv3 Hv1 Hv2 Hv3.
  destruct (run_epoch_quiet args params 2 max_lr_changes Hstep
              (e + 1) b1 m1 s best Hbest Hv1)
    as (s1 & Hrun1 & Hb1 & Hlr1 & Hc1 & Hr1 & Hl1 & _ & Hd1); [lia|].
  destruct (run_epoch_quiet args params 2 max_lr_changes Hstep
              (e + 2) b2 m2 s1 best Hb1)
    as (s2 & Hrun2 & Hb2 & Hlr2 & Hc2 & Hr2 & Hl2 & _ & Hd2); [lra|lia|].
  destruct (run_epoch_patience args params 2 max_lr_changes Hstep
              (e + 3) b3 m3 s2 best
              (Qmin (effective_loss args m3) (effective_loss args m2))
              Hsched ltac:(done) Hb2)
    as (sb & s3 & _ & Hrun3 & Hb3 & Hlr3 & Hc3 & Hl3 & Hd3 & Hlast3).
  { lra. }
  { lia. }
  { rewrite Hl2, Hl1. by rewrite last_n_snoc2. }
  { by apply Q.min_glb_lt. }
  rewrite decide_False in Hrun3 by lia.
  eexists s2, _. split_and!.
  - cbn [epochs_loop]. rewrite Henv1, Hrun1. cbn [mbind result_bind].
    by rewrite Henv2, Hrun2.
  - cbn [epochs_loop]. rewrite Henv1, Hrun1. cbn [mbind result_bind].
    rewrite Henv2, Hrun2. cbn [mbind result_bind].
    by rewrite Henv3, Hrun3.
  - congruence.
  - congruence.
  - congruence.
  - simpl. congruence.
  - simpl. congruence.
  - simpl. rewrite decay_epochs_app. simpl. congruence.
  - simpl. congruence.
  - simpl. rewrite last_snoc. congruence.
Qed.

(** The scenario in a fresh run: epoch 1 sets the best loss 5, epochs 2, 3
    and 4 stay above it, and the one decay happens in epoch 4. *)
Example fresh_run_decays_in_epoch_4 :
  ∃ s3 s4,
    train (Args 1 100 1 SchedNone 0 false) () None (losses_env [5; 6; 6; 6]%Q)
      (Some 3%Z) 2 2 = Ok (true, s3)
    ∧ train (Args 1 100 1 SchedNone 0 false) () None
        (losses_env [5; 6; 6; 6]%Q) (Some 4%Z) 2 2 = Ok (true, s4)
    ∧ decay_epochs (events s3) = []
    ∧ lr_changes s3 = 0
    ∧ decay_epochs (events s4) = [4%Z]
    ∧ lr_changes s4 = 1
    ∧ (lr s4 == 1 / 5)%Q
    ∧ optimizer s4 = init_optimizer () (lr s4).
Proof.
  do 2 eexists.
  do 2 (split; [vm_compute; reflexivity|]).
  split_and!; vm_compute; reflexivity.
Qed.

Lemma patience_decay_on_third_epoch_witness :
  let args := Args 0.001 100 1 SchedNone 0 false in
  let env := λ _ : Z,
    Completes [Batch 2 (Tensor1 [1; 2]%Q)] (ValidMetrics 0 6) in
  let s := TrainState 7 (Finite 5) 0.001 0 1 [5]%Q (Optimizer () 0.001%Q 7)
             (Some (Checkpoint 2 7 Infinity))
             (Some (Checkpoint 2 7 Infinity)) [] in
  ∃ s2 s3,
    epochs_loop args () 2 2 None env [1 + 1; 1 + 2]%Z s = Ok (true, s2)
    ∧ epochs_loop args () 2 2 None env [1 + 1; 1 + 2; 1 + 3]%Z s = Ok (true, s3)
    ∧ lr s2 = lr s
    ∧ lr_changes s2 = lr_changes s
    ∧ decay_epochs (events s2) = decay_epochs (events s)
    ∧ lr s3 = (lr s / 5)%Q
    ∧ lr_changes s3 = S (lr_changes s)
    ∧ decay_epochs (events s3) = decay_epochs (events s) ++ [(1 + 3)%Z]
    ∧ optimizer s3 = init_optimizer () (lr s / 5)%Q
    ∧ last (events s3) = Some (LrDecayed (1 + 3) (lr s / 5)%Q).
Proof.
  apply (patience_decay_on_third_epoch
           (Args 0.001 100 1 SchedNone 0 false) () 2
           (λ _ : Z, Completes [Batch 2 (Tensor1 [1; 2]%Q)] (ValidMetrics 0 6))
           1 _ 5
           [Batch 2 (Tensor1 [1; 2]%Q)] [Batch 2 (Tensor1 [1; 2]%Q)]
           [Batch 2 (Tensor1 [1; 2]%Q)]
           (ValidMetrics 0 6) (ValidMetrics 0 6) (ValidMetrics 0 6)).
  - reflexivity.
  - simpl. lia.
  - reflexivity.
  - reflexivity.
  - simpl. lia.
  - reflexivity.
  - reflexivity.
  - reflexivity.
  - unfold Qle. simpl. lia.
  - unfold Qlt. simpl. lia.
  - unfold Qlt. simpl. lia.
Defined.

(** C5 as stated fails. A fresh run with patience = 2 and validation losses
    3, 2, 1, 5, 5, 5: epochs 4, 5 and 6 do not improve on the best loss 1,
    yet the decay happens in epoch 5, the second of them, and none in
    epoch 6. With losses 5, 5, 5, 5 the epochs 2, 3 and 4 do not improve
    either and no decay happens at all. *)
Lemma patience_decay_counterexample :
  let args := Args 1 100 1 SchedNone 0 false in
  ∃ s3 s5 s6 t4,
    train args () None (losses_env [3; 2; 1]%Q) (Some 3%Z) 2 2 = Ok (true, s3)
    ∧ train args () None (losses_env [3; 2; 1]%Q) (Some 5%Z) 2 2 = Ok (true, s5)
    ∧ train args () None (losses_env [3; 2; 1]%Q) (Some 6%Z) 2 2 = Ok (true, s6)
    ∧ best_valid_loss s3 = Finite 1
    ∧ best_valid_loss s6 = Finite 1
    ∧ valid_losses s6 = [3; 2; 1; 5; 5; 5]%Q
    ∧ decay_epochs (events s3) = []
    ∧ decay_epochs (events s5) = [5%Z]
    ∧ lr_changes s5 = 1
    ∧ decay_epochs (events s6) = [5%Z]
    ∧ train args () None (losses_env [5]%Q) (Some 4%Z) 2 2 = Ok (true, t4)
    ∧ valid_losses t4 = [5; 5; 5; 5]%Q
    ∧ decay_epochs (events t4) = []
    ∧ lr_changes t4 = 0.
Proof.
  cbn zeta. do 4 eexists.
  split; [vm_compute; reflexivity|].
  split; [vm_compute; reflexivity|].
  split; [vm_compute; reflexivity|].
  do 7 (split; [vm_compute; reflexivity|]).
  split; [vm_compute; reflexivity|].
  split_and!; vm_compute; reflexivity.
Qed.

(** ** Stopping after too many decay events *)

Section StopFacts.

Context {Params : Type}.
Variable args : train_args.
Variable params : Params.
Variable patience : nat.
Variable max_lr_changes : nat.
Variable lr_func : option (Z → Q).

Lemma run_epoch_outcome (epoch : Z) (run : epoch_run)
    (s : train_state Params) (o : outcome Params) :
  run_epoch args params patience max_lr_changes lr_func epoch run s = Ok o →
  within_limit max_lr_changes s →
  match o with
  | Continue s' => within_limit max_lr_changes s'
  | Break s' => stopped_at max_lr_changes epoch s'
  | Return b s' => b = false ∧ within_limit max_lr_changes s'
  end.
Proof.
  intros Hrun [Hle Hcnt]. unfold run_epoch in Hrun.
  destruct run as [batches metrics|batches];
    destruct (batch_loop args lr_func 0 batches (log (BatchLoopStarted epoch) s))
      as [sb|] eqn:Hsb; try done;
    cbn [mbind result_bind] in Hrun; injection Hrun as <-;
    apply batch_loop_frame in Hsb
      as (_ & Hc & _ & _ & _ & _ & _ & _ & evs & Hev & Hback);
    simpl in Hc, Hev;
    assert (counters_le max_lr_changes (events sb)) as Hsbcnt
      by (rewrite Hev; unfold counters_le; rewrite !Forall_app;
          split_and!; [done|by repeat constructor
                      |by apply counters_le_backward]).
  - rewrite after_batches_cases. cbn zeta.
    destruct (improves _ _).
    { split; simpl; [lia|]. unfold counters_le. rewrite !Forall_app.
      split_and!; [done|by repeat constructor..]. }
    destruct (decay_due _ _ _ _).
    2:{ split; simpl; [lia|]. unfold counters_le. rewrite !Forall_app.
        split_and!; [done|by repeat constructor]. }
    destruct (decide _) as [Hgt|Hngt].
    + split; simpl; [lia|]. eexists. split.
      * replace (S (lr_changes sb)) with (S max_lr_changes) by lia. done.
      * unfold counters_le. rewrite !Forall_app.
        split_and!; [done|by repeat constructor].
    + split; simpl; [lia|]. unfold counters_le. rewrite !Forall_app.
      split_and!; [done|by repeat constructor| |by repeat constructor].
      repeat constructor. lia.
  - split; [done|]. split; simpl; [lia|].
    unfold counters_le. rewrite !Forall_app.
    split_and!; [done|by repeat constructor..].
Qed.

Lemma epochs_loop_outcome (env : Z → epoch_run) (epochs : list Z)
    (s : train_state Params) (b : bool) (s' : train_state Params) :
  epochs_loop args params patience max_lr_changes lr_func env epochs s
    = Ok (b, s') →
  within_limit max_lr_changes s →
  within_limit max_lr_changes s'
  ∨ (b = true ∧ ∃ epoch, epoch ∈ epochs ∧ stopped_at max_lr_changes epoch s').
Proof.
  revert s. induction epochs as [|epoch rest IH]; intros s Hloop Hin.
  - injection Hloop as <- <-. by left.
  - cbn [epochs_loop] in Hloop.
    destruct (run_epoch _ _ _ _ _ epoch _ s) as [o|] eqn:Hrun; [|done].
    cbn [mbind result_bind] in Hloop.
    pose proof (run_epoch_outcome _ _ _ _ Hrun Hin) as Ho.
    destruct o as [s1|s1|b1 s1].
    + destruct (IH s1 Hloop Ho) as [?|(-> & e' & He' & Hstop)]; [by left|].
      right. split; [done|]. exists e'. split; [by right|done].
    + injection Hloop as <- <-. right. split; [done|].
      exists epoch. split; [left|done].
    + injection Hloop as <- <-. left. apply Ho.
Qed.

End StopFacts.

(** C6. In every run with max_lr_changes = 2 in which a third decay event
    is counted, in some epoch e, that event is the last thing the loop does:
    nothing is logged after it, so no later epoch's batch loop starts, and
    [train] returns [True] like a run that reached its last epoch. *)
Theorem third_decay_event_stops_training {Params : Type} (args : train_args)
    (params : Params) (existing : option checkpoint) (env : Z → epoch_run)
    (n_epochs : option Z) (patience : nat) (e : Z) (b : bool)
    (s : train_state Params) :
  train args params existing env n_epochs patience 2 = Ok (b, s) →
  PatienceExceeded e 3 ∈ events s →
  b = true
  ∧ lr_changes s = 3
  ∧ last (events s) = Some (PatienceExceeded e 3)
  ∧ ∀ earlier later,
      events s = earlier ++ PatienceExceeded e 3 :: later → later = [].
Proof.
  intros Htrain He. unfold train in Htrain.
  destruct (make_lr_func _ _ _) as [lr_func|] eqn:Hf; [|done].
  cbn [mbind result_bind] in Htrain.
  apply epochs_loop_outcome in Htrain as [[_ Hcnt]|(-> & e' & _ & Hc & pre & Hev & Hpre)].
  - unfold counters_le in Hcnt. rewrite Forall_forall in Hcnt.
    specialize (Hcnt _ He). simpl in Hcnt. lia.
  - assert (e' = e) as ->.
    { rewrite Hev in He. apply elem_of_app in He as [He|He].
      - unfold counters_le in Hpre. rewrite Forall_forall in Hpre.
        specialize (Hpre _ He). simpl in Hpre. lia.
      - apply list_elem_of_singleton in He. by injection He. }
    split_and!; [done|done|by rewrite Hev, last_snoc|].
    intros earlier later Heq. rewrite Hev in Heq.
    destruct later as [|ev later _] using rev_ind; [done|].
    exfalso.
    rewrite app_comm_cons, app_assoc in Heq.
    apply app_inj_tail in Heq as [-> _].
    unfold counters_le in Hpre. rewrite Forall_app, Forall_cons in Hpre.
    destruct Hpre as (_ & Hbad & _). simpl in Hbad. lia.
  - split; simpl; [lia|]. constructor.
Qed.

Lemma third_decay_event_stops_training_witness :
  ∃ s,
    train (Args 1 100 1 SchedNone 0 false) () None (losses_env [1]%Q)
      (Some 100%Z) 1 2 = Ok (true, s)
    ∧ true = true
    ∧ lr_changes s = 3
    ∧ last (events s) = Some (PatienceExceeded 7 3)
    ∧ ∀ earlier later,
        events s = earlier ++ PatienceExceeded 7 3 :: later → later = [].
Proof.
  eexists. split; [vm_compute; reflexivity|].
  apply (third_decay_event_stops_training
           (Args 1 100 1 SchedNone 0 false) () None (losses_env [1]%Q)
           (Some 100%Z) 1 7 true).
  - vm_compute. reflexivity.
  - vm_compute. repeat constructor.
Defined.

(** ** Interruption *)

(** C7. When a [KeyboardInterrupt] is raised in the batch loop of epoch e,
    after any number of batches, [train] does not raise: it saves a
    checkpoint with the epoch number e, the current [step] and the current
    [best_valid_loss], and returns [False]. *)
Theorem interrupt_saves_and_returns_false {Params : Type} (args : train_args)
    (params : Params) (patience max_lr_changes : nat)
    (lr_func : option (Z → Q)) (env : Z → epoch_run)
    (e : Z) (later : list Z) (batches : list batch)
    (s : train_state Params) :
  args_step args ≠ 0%Z →
  env e = KeyboardInterrupt batches →
  ∃ s_int s',
    batch_loop args lr_func 0 batches (log (BatchLoopStarted e) s) = Ok s_int
    ∧ epochs_loop args params patience max_lr_changes lr_func env
        (e :: later) s = Ok (false, s')
    ∧ model_pt s'
      = Some (Checkpoint e (step s_int) (best_valid_loss s_int))
    ∧ step s' = step s_int
    ∧ best_valid_loss s' = best_valid_loss s
    ∧ best_valid_loss s_int = best_valid_loss s
    ∧ events s'
      = events s_int
        ++ [Interrupted e;
            Saved (Checkpoint e (step s_int) (best_valid_loss s_int))].
Proof.
  intros Hstep Henv.
  destruct (batch_loop_total args lr_func batches 0 (log (BatchLoopStarted e) s)
              Hstep) as [s_int Hint].
  exists s_int. eexists. split; [done|].
  cbn [epochs_loop]. rewrite Henv. unfold run_epoch. rewrite Hint.
  cbn [mbind result_bind]. split; [reflexivity|].
  apply batch_loop_frame in Hint as (Hb & _).
  simpl in *. split_and!; try done. by rewrite <- app_assoc.
Qed.

Lemma interrupt_saves_and_returns_false_witness :
  let args := Args 1 100 2 SchedNone 0 false in
  let env := λ epoch : Z,
    if decide (epoch = 3%Z)
    then KeyboardInterrupt [Batch 2 (Tensor1 [1; 2]%Q);
                            Batch 2 (Tensor1 [1; 2]%Q);
                            Batch 2 (Tensor1 [1; 2]%Q)]
    else losses_env [] epoch in
  let s := TrainState 7 (Finite 5) 1 0 1 [5; 5]%Q (Optimizer () 1%Q 7)
             (Some (Checkpoint 3 7 (Finite 5))) None [] in
  ∃ s_int s',
    batch_loop args None 0 [Batch 2 (Tensor1 [1; 2]%Q);
                            Batch 2 (Tensor1 [1; 2]%Q);
                            Batch 2 (Tensor1 [1; 2]%Q)]
      (log (BatchLoopStarted 3) s) = Ok s_int
    ∧ epochs_loop args () 2 2 None env (3 :: [4; 5])%Z s = Ok (false, s')
    ∧ model_pt s'
      = Some (Checkpoint 3 (step s_int) (best_valid_loss s_int))
    ∧ step s' = step s_int
    ∧ best_valid_loss s' = best_valid_loss s
    ∧ best_valid_loss s_int = best_valid_loss s
    ∧ events s'
      = events s_int
        ++ [Interrupted 3;
            Saved (Checkpoint 3 (step s_int) (best_valid_loss s_int))].
Proof.
  apply (interrupt_saves_and_returns_false
           (Args 1 100 2 SchedNone 0 false) () 2 2 None
           (λ epoch : Z,
              if decide (epoch = 3%Z)
              then KeyboardInterrupt [Batch 2 (Tensor1 [1; 2]%Q);
                                      Batch 2 (Tensor1 [1; 2]%Q);
                                      Batch 2 (Tensor1 [1; 2]%Q)]
              else losses_env [] epoch)
           3 [4; 5]%Z).
  - simpl. lia.
  - reflexivity.
Defined.

(** The checkpoint of the witness: epoch 3 with one optimizer step taken in
    the interrupted epoch (three batches, a step every second batch). *)
Example interrupt_checkpoint_example :
  ∃ s',
    epochs_loop (Args 1 100 2 SchedNone 0 false) () 2 2 None
      (λ _ : Z, KeyboardInterrupt [Batch 2 (Tensor1 [1; 2]%Q);
                                   Batch 2 (Tensor1 [1; 2]%Q);
                                   Batch 2 (Tensor1 [1; 2]%Q)])
      [3; 4; 5]%Z
      (TrainState 7 (Finite 5) 1 0 1 [5; 5]%Q (Optimizer () 1%Q 7)
         (Some (Checkpoint 3 7 (Finite 5))) None [])
    = Ok (false, s')
    ∧ model_pt s' = Some (Checkpoint 3 8 (Finite 5)).
Proof. eexists. split; vm_compute; reflexivity. Qed.

(** ** What [get_score] receives *)

(** In [validation] every row handed to [get_score] holds at least one 1:
    [binarize_prediction] is called with the default [min_labels = 1], so a
    row of predictions is never all-zero (given at least one class). *)
Lemma validation_binarize_rows_nonzero (N_CLASSES : nat)
    (all_predictions : array2 Q) (threshold : Q) :
  wf_array2 all_predictions →
  shape1 all_predictions = N_CLASSES →
  1 ≤ N_CLASSES →
  ∃ y_pred,
    validation_binarize N_CLASSES all_predictions threshold = Ok y_pred
    ∧ shape0 y_pred = shape0 all_predictions
    ∧ Forall (λ row, 1 ≤ count_ones row ∧ row ≠ replicate N_CLASSES false)
        (rows y_pred).
Proof.
  intros Hwf Hshape HN. unfold validation_binarize.
  assert (valid_argsorted all_predictions (Some (argsort all_predictions)))
    as Hv.
  { split.
    - unfold same_shape, shape0, argsort. simpl. by rewrite length_fmap.
    - by apply argsort_perm. }
  destruct (binarize_prediction_rows N_CLASSES all_predictions
              (Some (argsort all_predictions)) 1 10 Hwf Hshape Hv
              ltac:(lia) ltac:(lia) threshold)
    as (mx & mn & out & Hmx & Hmn & Hout & H0 & H1 & Hrows).
  destruct (valid_argsorted_perm _ _ Hwf Hv) as [Hp [_ Hs1]].
  exists out. split_and!; [done|done|].
  apply Forall_lookup. intros r row Hrow.
  destruct (Hrows r row Hrow)
    as (mxr & mnr & prow & Hmxr & Hmnr & Hprow & Lx & Ln & Lp & ->).
  assert (1 ≤ count_ones
                (combine_row mxr ((λ p, Qgtb p threshold) <$> prow) mnr))
    as Hone.
  { eapply (combine_row_at_least_min _ 1 mn r); eauto;
      rewrite ?length_fmap; simpl in *; lia. }
  split; [done|]. intros Hzero. rewrite Hzero in Hone.
  clear -Hone. induction N_CLASSES as [|n IH]; simpl in Hone.
  - rewrite count_ones_nil in Hone. lia.
  - rewrite count_ones_cons in Hone. simpl in Hone. by apply IH.
Qed.

(** * Further properties of the code *)

(** ** [SquarePad] *)

(** X1. [SquarePad] turns an image of size (w, h) into a square one whose
    side is the larger of w and h, and never crops: no border is negative. *)
Theorem SquarePad_makes_square (w h : Z) :
  SquarePad_size (w, h) = (Z.max w h, Z.max w h)
  ∧ let '(pad_l, pad_t, pad_r, pad_b) := square_padding w h in
    (0 ≤ pad_l ∧ 0 ≤ pad_t ∧ 0 ≤ pad_r ∧ 0 ≤ pad_b)%Z.
Proof.
  unfold SquarePad_size, square_padding, expand_size. simpl.
  pose proof (Z.mod_pos_bound (w - h) 2 ltac:(lia)) as Hextra.
  pose proof (Z.div_mod (w - h) 2 ltac:(lia)) as Hwh.
  pose proof (Z.div_mod (h - w) 2 ltac:(lia)) as Hhw.
  pose proof (Z.mod_pos_bound (h - w) 2 ltac:(lia)) as Hextra'.
  destruct (Z.gtb_spec w h) as [Hgt|Hle]; simpl.
  - split; [f_equal; lia|].
    assert (0 ≤ (w - h) / 2)%Z by (apply Z.div_pos; lia). lia.
  - assert (((w - h) mod 2) = ((h - w) mod 2))%Z as Hpar.
    { replace (w - h)%Z with ((h - w) + (- (h - w)) * 2)%Z by lia.
      by rewrite Z.mod_add by lia. }
    split; [f_equal; lia|].
    assert (0 ≤ (h - w) / 2)%Z by (apply Z.div_pos; lia). lia.
Qed.

(** X2. [SquarePad] pads one dimension only and centres the image to within
    one pixel: the two borders of the padded dimension differ by the parity
    of w - h, the odd pixel going to the top (or the left), and a square
    image gets no border at all. *)
Theorem SquarePad_centres (w h : Z) :
  let '(pad_l, pad_t, pad_r, pad_b) := square_padding w h in
  ((w > h → pad_l = 0 ∧ pad_r = 0 ∧ pad_t = pad_b + (w - h) mod 2)
   ∧ (w ≤ h → pad_t = 0 ∧ pad_b = 0 ∧ pad_l = pad_r + (w - h) mod 2)
   ∧ 0 ≤ (w - h) mod 2 ≤ 1
   ∧ (w = h → pad_l = 0 ∧ pad_t = 0 ∧ pad_r = 0 ∧ pad_b = 0))%Z.
Proof.
  unfold square_padding.
  pose proof (Z.mod_pos_bound (w - h) 2 ltac:(lia)) as Hextra.
  destruct (Z.gtb_spec w h) as [Hgt|Hle]; simpl.
  - split_and!; try lia.
  - split_and!; try lia.
    intros ->. rewrite !Z.sub_diag.
    change (0 / 2)%Z with 0%Z. change (0 mod 2)%Z with 0%Z. lia.
Qed.

(** ** [binarize_prediction]: which labels are selected *)

Lemma combine_row_lookup (mx pr mn : list bool) (c : nat) (x p n : bool) :
  mx !! c = Some x → pr !! c = Some p → mn !! c = Some n →
  combine_row mx pr mn !! c = Some (x && p || n).
Proof.
  intros Hx Hp Hn. unfold combine_row.
  rewrite !lookup_zip_with, Hx, Hp, Hn. done.
Qed.

(** Entry (r, c) of the result, for label counts within the number of
    columns: label c is among the last [max_labels] of row r of [argsorted]
    and its probability is above the threshold, or it is among the last
    [min_labels]. *)
Lemma binarize_prediction_entry (N_CLASSES : nat) (probabilities : array2 Q)
    (threshold : Q) (argsorted : option (array2 nat))
    (min_labels max_labels : nat) :
  wf_array2 probabilities →
  shape1 probabilities = N_CLASSES →
  valid_argsorted probabilities argsorted →
  1 ≤ min_labels ≤ N_CLASSES →
  1 ≤ max_labels ≤ N_CLASSES →
  ∃ out,
    binarize_prediction N_CLASSES probabilities threshold argsorted
      min_labels max_labels = Ok out
    ∧ shape0 out = shape0 probabilities
    ∧ ∀ r c ar prow p,
        rows (default (argsort probabilities) argsorted) !! r = Some ar →
        rows probabilities !! r = Some prow →
        prow !! c = Some p →
        ∃ row, rows out !! r = Some row
          ∧ row !! c = Some (bool_decide (c ∈ last_n max_labels ar)
                             && Qgtb p threshold
                             || bool_decide (c ∈ last_n min_labels ar)).
Proof.
  intros Hwf Hshape Hv Hmin Hmax.
  destruct (binarize_prediction_rows N_CLASSES probabilities argsorted
              min_labels max_labels Hwf Hshape Hv ltac:(lia) ltac:(lia)
              threshold)
    as (mx & mn & out & Hmx & Hmn & Hout & H0 & H1 & Hrows).
  destruct (valid_argsorted_perm _ _ Hwf Hv) as [Hp [Hs0 Hs1]].
  exists out. split_and!; [done|done|].
  intros r c ar prow p Har Hprow Hpc.
  destruct (lookup_lt_is_Some_2 (rows out) r) as [row Hrow].
  { unfold shape0 in H0. rewrite H0. by eapply lookup_lt_Some. }
  exists row. split; [done|].
  destruct (Hrows r row Hrow)
    as (mxr & mnr & prow' & Hmxr & Hmnr & Hprow' & Lx & Ln & Lp & ->).
  simplify_eq.
  assert (c < shape1 probabilities) as Hc.
  { rewrite <- Lp. by eapply lookup_lt_Some. }
  apply combine_row_lookup.
  - rewrite (make_mask_row _ max_labels mx r ar mxr) by (done || lia).
    rewrite list_lookup_fmap, Hs1.
    by rewrite (proj2 (lookup_seq 0 _ c c)).
  - by rewrite list_lookup_fmap, Hpc.
  - rewrite (make_mask_row _ min_labels mn r ar mnr) by (done || lia).
    rewrite list_lookup_fmap, Hs1.
    by rewrite (proj2 (lookup_seq 0 _ c c)).
Qed.

Lemma Qgtb_lt (p t : Q) : Qgtb p t = true ↔ (t < p)%Q.
Proof.
  unfold Qgtb. destruct (Qle_bool p t) eqn:Hle; simpl.
  - apply Qle_bool_iff in Hle. split; [done|]. intros Hlt. lra.
  - split; [|done]. intros _.
    destruct (Qlt_le_dec t p) as [Hlt|Hge]; [done|].
    apply Qle_bool_iff in Hge. congruence.
Qed.

Lemma mask_at_lookup (m : array2 bool) (r c : nat) (row : list bool) (b : bool) :
  rows m !! r = Some row → row !! c = Some b → mask_at m r c = b.
Proof. intros Hr Hc. unfold mask_at. by rewrite Hr; simpl; rewrite Hc. Qed.

(** X3. For label counts between 1 and the number of classes, label c is
    selected in row r exactly when it is one of the last [min_labels] indices
    of the row's argsort, or one of the last [max_labels] and its
    probability is above the threshold. *)
Theorem binarize_prediction_selects (N_CLASSES : nat)
    (probabilities : array2 Q) (threshold : Q)
    (argsorted : option (array2 nat)) (min_labels max_labels : nat) :
  wf_array2 probabilities →
  shape1 probabilities = N_CLASSES →
  valid_argsorted probabilities argsorted →
  1 ≤ min_labels ≤ N_CLASSES →
  1 ≤ max_labels ≤ N_CLASSES →
  ∃ out,
    binarize_prediction N_CLASSES probabilities threshold argsorted
      min_labels max_labels = Ok out
    ∧ ∀ r c ar prow p,
        rows (default (argsort probabilities) argsorted) !! r = Some ar →
        rows probabilities !! r = Some prow →
        prow !! c = Some p →
        (mask_at out r c = true
         ↔ (c ∈ last_n max_labels ar ∧ (threshold < p)%Q)
           ∨ c ∈ last_n min_labels ar).
Proof.
  intros Hwf Hshape Hv Hmin Hmax.
  destruct (binarize_prediction_entry N_CLASSES probabilities threshold
              argsorted min_labels max_labels Hwf Hshape Hv Hmin Hmax)
    as (out & Hout & _ & Hentry).
  exists out. split; [done|].
  intros r c ar prow p Har Hprow Hp.
  destruct (Hentry r c ar prow p Har Hprow Hp) as (row & Hrow & Hc).
  rewrite (mask_at_lookup out r c row _ Hrow Hc).
  rewrite orb_true_iff, andb_true_iff, !bool_decide_eq_true, Qgtb_lt. done.
Qed.

Lemma binarize_prediction_selects_witness :
  ∃ out,
    binarize_prediction 3
      (Array2 3 [[0.9; 0.2; 0.05]; [0.1; 0.1; 0.1]]%Q) 0.15%Q None 1 2 = Ok out
    ∧ ∀ r c ar prow p,
        rows (default (argsort (Array2 3 [[0.9; 0.2; 0.05]; [0.1; 0.1; 0.1]]%Q))
                None) !! r = Some ar →
        rows (Array2 3 [[0.9; 0.2; 0.05]; [0.1; 0.1; 0.1]]%Q) !! r = Some prow →
        prow !! c = Some p →
        (mask_at out r c = true
         ↔ (c ∈ last_n 2 ar ∧ (0.15 < p)%Q) ∨ c ∈ last_n 1 ar).
Proof.
  apply (binarize_prediction_selects 3
           (Array2 3 [[0.9; 0.2; 0.05]; [0.1; 0.1; 0.1]]%Q) 0.15%Q None 1 2).
  - repeat constructor.
  - reflexivity.
  - exact I.
  - lia.
  - lia.
Defined.

(** ** [binarize_prediction]: the labels picked are the most probable ones *)

Lemma insert_index_ascending (prow : list Q) (i : nat) (sorted : list nat) :
  ascending prow sorted →
  ascending prow (insert_index (λ i, default 0%Q (prow !! i)) i sorted).
Proof.
  unfold ascending. induction 1 as [|j rest Hrest IH Hj]; simpl.
  - repeat constructor.
  - destruct (Qle_bool _ _) eqn:Hle.
    + apply Qle_bool_iff in Hle. constructor.
      * by constructor.
      * constructor; [done|]. eapply Forall_impl; [exact Hj|].
        intros y Hy. simpl in *. by apply Qle_trans with (default 0%Q (prow !! j)).
    + constructor; [done|].
      rewrite insert_index_perm. constructor; [|done].
      destruct (Qlt_le_dec (default 0%Q (prow !! j)) (default 0%Q (prow !! i)))
        as [Hlt|Hge]; [by apply Qlt_le_weak|].
      apply Qle_bool_iff in Hge. congruence.
Qed.

Lemma argsort_row_ascending (prow : list Q) : ascending prow (argsort_row prow).
Proof.
  unfold argsort_row.
  induction (seq 0 (length prow)) as [|i l IH]; simpl.
  - constructor.
  - by apply insert_index_ascending.
Qed.

Lemma default_argsorted_ascending (probabilities : array2 Q)
    (argsorted : option (array2 nat)) (r : nat) (prow : list Q)
    (ar : list nat) :
  argsorted_ascending probabilities argsorted →
  rows probabilities !! r = Some prow →
  rows (default (argsort probabilities) argsorted) !! r = Some ar →
  ascending prow ar.
Proof.
  intros Hasc Hprow Har. destruct argsorted as [a|]; simpl in *.
  - by eapply (Forall2_lookup_lr _ _ _ r).
  - rewrite list_lookup_fmap, Hprow in Har. injection Har as <-.
    apply argsort_row_ascending.
Qed.

(** In an ascending row, an index outside the last [n] has a probability no
    larger than that of any index among the last [n]. *)
Lemma last_n_dominates (prow : list Q) (ar : list nat) (n x y : nat) :
  ascending prow ar → n ≠ 0 →
  x ∈ ar → x ∉ last_n n ar → y ∈ last_n n ar →
  (default 0%Q (prow !! x) <= default 0%Q (prow !! y))%Q.
Proof.
  unfold ascending, last_n. intros Hasc Hn Hx Hnx Hy.
  rewrite decide_False in Hnx, Hy by done.
  rewrite <- (take_drop (length ar - n) ar) in Hasc, Hx.
  apply elem_of_app in Hx as [Hx|Hx]; [|done].
  by eapply (StronglySorted_app_1_elem_of _ _ _ _ _ Hasc).
Qed.

(** X4. When [argsorted] is an argsort of the probabilities (the default, or
    any ascending order passed in) and the label counts lie between 1 and
    the number of classes, every selected label of a row has a probability
    at least as large as every label of that row that is not selected. *)
Theorem binarize_prediction_prefers_probable (N_CLASSES : nat)
    (probabilities : array2 Q) (threshold : Q)
    (argsorted : option (array2 nat)) (min_labels max_labels : nat) :
  wf_array2 probabilities →
  shape1 probabilities = N_CLASSES →
  valid_argsorted probabilities argsorted →
  argsorted_ascending probabilities argsorted →
  1 ≤ min_labels ≤ N_CLASSES →
  1 ≤ max_labels ≤ N_CLASSES →
  ∃ out,
    binarize_prediction N_CLASSES probabilities threshold argsorted
      min_labels max_labels = Ok out
    ∧ ∀ r prow c c' p p',
        rows probabilities !! r = Some prow →
        prow !! c = Some p → prow !! c' = Some p' →
        mask_at out r c = true → mask_at out r c' = false →
        (p' <= p)%Q.
Proof.
  intros Hwf Hshape Hv Hasc Hmin Hmax.
  destruct (binarize_prediction_entry N_CLASSES probabilities threshold
              argsorted min_labels max_labels Hwf Hshape Hv Hmin Hmax)
    as (out & Hout & _ & Hentry).
  destruct (valid_argsorted_perm _ _ Hwf Hv) as [Hp [Hs0 Hs1]].
  exists out. split; [done|].
  intros r prow c c' p p' Hprow Hc Hc' Hsel Hnot.
  destruct (lookup_lt_is_Some_2
              (rows (default (argsort probabilities) argsorted)) r)
    as [ar Har].
  { unfold shape0 in Hs0. rewrite Hs0. by eapply lookup_lt_Some. }
  destruct (Hentry r c ar prow p Har Hprow Hc) as (row & Hrow & Hb).
  destruct (Hentry r c' ar prow p' Har Hprow Hc') as (row' & Hrow' & Hb').
  simplify_eq.
  rewrite (mask_at_lookup out r c row _ Hrow Hb) in Hsel.
  rewrite (mask_at_lookup out r c' row _ Hrow Hb') in Hnot.
  pose proof (default_argsorted_ascending _ _ r prow ar Hasc Hprow Har) as Hsorted.
  assert (c' ∈ ar) as Hin'.
  { rewrite (Forall_lookup_1 _ _ _ _ Hp Har). apply elem_of_seq.
    rewrite Hs1, <- (Forall_lookup_1 _ _ _ _ Hwf Hprow).
    apply lookup_lt_Some in Hc'. lia. }
  assert (∀ n, n ≠ 0 → c' ∉ last_n n ar → c ∈ last_n n ar → (p' <= p)%Q)
    as Hdom.
  { intros n Hn Hout' Hin.
    pose proof (last_n_dominates prow ar n c' c Hsorted Hn Hin' Hout' Hin)
      as Hle.
    by rewrite Hc, Hc' in Hle. }
  apply orb_false_iff in Hnot as [Hnot_max Hnot_min].
  apply bool_decide_eq_false in Hnot_min.
  apply orb_true_iff in Hsel as [Hsel|Hsel].
  - apply andb_true_iff in Hsel as [Hin_max Hgt].
    apply bool_decide_eq_true in Hin_max. apply Qgtb_lt in Hgt.
    apply andb_false_iff in Hnot_max as [Hout_max|Hle].
    + apply bool_decide_eq_false in Hout_max.
      apply (Hdom max_labels); [lia|done..].
    + assert (p' <= threshold)%Q; [|lra].
      destruct (Qlt_le_dec threshold p') as [Hlt|?]; [|done].
      apply Qgtb_lt in Hlt. congruence.
  - apply bool_decide_eq_true in Hsel.
    apply (Hdom min_labels); [lia|done..].
Qed.

Lemma binarize_prediction_prefers_probable_witness :
  ∃ out,
    binarize_prediction 3
      (Array2 3 [[0.9; 0.2; 0.05]; [0.1; 0.1; 0.1]]%Q) 0.15%Q None 1 2 = Ok out
    ∧ ∀ r prow c c' p p',
        rows (Array2 3 [[0.9; 0.2; 0.05]; [0.1; 0.1; 0.1]]%Q) !! r = Some prow →
        prow !! c = Some p → prow !! c' = Some p' →
        mask_at out r c = true → mask_at out r c' = false →
        (p' <= p)%Q.
Proof.
  apply (binarize_prediction_prefers_probable 3
           (Array2 3 [[0.9; 0.2; 0.05]; [0.1; 0.1; 0.1]]%Q) 0.15%Q None 1 2).
  - repeat constructor.
  - reflexivity.
  - exact I.
  - exact I.
  - lia.
  - lia.
Defined.

(** ** [binarize_prediction]: very high and very low thresholds *)

Lemma combine_row_none_above (mx pr mn : list bool) :
  length mx = length mn → length pr = length mn →
  Forall (λ b, b = false) pr → combine_row mx pr mn = mn.
Proof.
  unfold combine_row. revert mx pr.
  induction mn as [|n mn IH]; intros [|x mx] [|p pr] ?? Hpr; simplify_eq/=;
    try done.
  apply Forall_cons in Hpr as [-> Hpr].
  rewrite andb_false_r. simpl. f_equal. by apply IH.
Qed.

Lemma combine_row_all_above (mx pr mn : list bool) :
  length pr = length mx →
  Forall2 (λ a b : bool, a → b) mn mx →
  Forall (λ b, b = true) pr → combine_row mx pr mn = mx.
Proof.
  unfold combine_row. intros Hlen Himp. revert pr Hlen.
  induction Himp as [|n x mn mx Hnx _ IH]; intros [|p pr] ? Hpr;
    simplify_eq/=; try done.
  apply Forall_cons in Hpr as [-> Hpr].
  rewrite andb_true_r. f_equal; [|by apply IH].
  destruct n, x; simpl in *; done.
Qed.

(** The min mask lies inside the max mask when
    min_labels <= max_labels <= number of columns. *)
Lemma min_mask_within_max_mask (a : array2 nat) (min_labels max_labels : nat)
    (max_mask min_mask : array2 bool) (r : nat) (mxr mnr : list bool) :
  rows_are_permutations a → 1 ≤ min_labels ≤ max_labels →
  max_labels ≤ shape1 a →
  _make_mask a max_labels = Ok max_mask →
  _make_mask a min_labels = Ok min_mask →
  rows max_mask !! r = Some mxr → rows min_mask !! r = Some mnr →
  Forall2 (λ a b : bool, a → b) mnr mxr.
Proof.
  intros Hp Hmm Hle Hmx Hmn Hmxr Hmnr.
  destruct (rows_are_permutations_wf a Hp) as [Hwf Hin].
  destruct (make_mask_ok a max_labels Hwf Hin)
    as (m' & Hm' & _ & H0 & _); [lia|].
  rewrite Hmx in Hm'. injection Hm' as <-.
  destruct (lookup_lt_is_Some_2 (rows a) r) as [ar Har].
  { unfold shape0 in H0. rewrite <- H0. by eapply lookup_lt_Some. }
  rewrite (make_mask_row a min_labels min_mask r ar mnr) by (done || lia).
  rewrite (make_mask_row a max_labels max_mask r ar mxr) by (done || lia).
  apply Forall2_fmap, Forall_Forall2_diag, Forall_true.
  intros c. rewrite !bool_decide_spec. by apply last_n_mono.
Qed.

(** X5. With 1 <= min_labels <= max_labels <= N_CLASSES: a row none of whose
    probabilities is above the threshold gets exactly [min_labels] ones, and
    a row all of whose probabilities are above the threshold gets exactly
    [max_labels] ones. *)
Theorem binarize_prediction_threshold_extremes (N_CLASSES : nat)
    (probabilities : array2 Q) (threshold : Q)
    (argsorted : option (array2 nat)) (min_labels max_labels : nat) :
  wf_array2 probabilities →
  shape1 probabilities = N_CLASSES →
  valid_argsorted probabilities argsorted →
  1 ≤ min_labels ≤ max_labels →
  max_labels ≤ N_CLASSES →
  ∃ out,
    binarize_prediction N_CLASSES probabilities threshold argsorted
      min_labels max_labels = Ok out
    ∧ Forall2
        (λ prow row,
           (Forall (λ p, (p <= threshold)%Q) prow → count_ones row = min_labels)
           ∧ (Forall (λ p, (threshold < p)%Q) prow
              → count_ones row = max_labels))
        (rows probabilities) (rows out).
Proof.
  intros Hwf Hshape Hv Hmm HmaxN.
  destruct (binarize_prediction_rows N_CLASSES probabilities argsorted
              min_labels max_labels Hwf Hshape Hv ltac:(lia) ltac:(lia)
              threshold)
    as (mx & mn & out & Hmx & Hmn & Hout & H0 & H1 & Hrows).
  destruct (valid_argsorted_perm _ _ Hwf Hv) as [Hp [_ Hs1]].
  exists out. split; [done|].
  apply Forall2_same_length_lookup_2.
  { unfold shape0 in H0. done. }
  intros r prow row Hprow Hrow.
  destruct (Hrows r row Hrow)
    as (mxr & mnr & prow' & Hmxr & Hmnr & Hprow' & Lx & Ln & Lp & ->).
  simplify_eq. split.
  - intros Hall. rewrite combine_row_none_above.
    + eapply (make_mask_row_count _ min_labels mn r); eauto. lia.
    + congruence.
    + rewrite length_fmap. congruence.
    + apply Forall_fmap. eapply Forall_impl; [exact Hall|].
      intros p Hle. simpl. unfold Qgtb.
      by rewrite (proj2 (Qle_bool_iff p threshold) Hle).
  - intros Hall. rewrite combine_row_all_above.
    + eapply (make_mask_row_count _ max_labels mx r); eauto. lia.
    + rewrite length_fmap. congruence.
    + eapply (min_mask_within_max_mask _ min_labels max_labels mx mn r); eauto.
      lia.
    + apply Forall_fmap. eapply Forall_impl; [exact Hall|].
      intros p Hlt. simpl. by apply Qgtb_lt.
Qed.

Lemma binarize_prediction_threshold_extremes_witness :
  ∃ out,
    binarize_prediction 3
      (Array2 3 [[0.9; 0.2; 0.05]; [0.1; 0.1; 0.1]]%Q) 0.15%Q None 1 2 = Ok out
    ∧ Forall2
        (λ prow row,
           (Forall (λ p, (p <= 0.15)%Q) prow → count_ones row = 1)
           ∧ (Forall (λ p, (0.15 < p)%Q) prow → count_ones row = 2))
        (rows (Array2 3 [[0.9; 0.2; 0.05]; [0.1; 0.1; 0.1]]%Q)) (rows out).
Proof.
  apply (binarize_prediction_threshold_extremes 3
           (Array2 3 [[0.9; 0.2; 0.05]; [0.1; 0.1; 0.1]]%Q) 0.15%Q None 1 2).
  - repeat constructor.
  - reflexivity.
  - exact I.
  - lia.
  - lia.
Defined.

(** ** [binarize_prediction]: label counts of 0, empty input, counts beyond
       the number of classes *)

Lemma last_n_zero_rows {A} (ls : list (list A)) : last_n 0 <$> ls = ls.
Proof. induction ls as [|l ls IH]; [done|]. by rewrite fmap_cons, IH. Qed.

(** [top_n = 0]: the slice [-0:] is the whole row and [i // 0] raises as
    soon as the array has an entry. *)
Lemma make_mask_zero (a : array2 nat) :
  _make_mask a 0
  = if decide (mjoin (rows a) = [])
    then Ok (zeros_like a) else Raise ZeroDivisionError.
Proof.
  unfold _make_mask. cbn zeta. rewrite last_n_zero_rows.
  destruct (mjoin (rows a)) as [|c cols].
  - by rewrite decide_True.
  - by rewrite decide_False.
Qed.

Lemma join_rows_nonempty {A} (a : array2 A) :
  wf_array2 a → 1 ≤ shape0 a → 1 ≤ shape1 a → mjoin (rows a) ≠ [].
Proof.
  unfold wf_array2, shape0. destruct (rows a) as [|row ls]; simpl; [lia|].
  intros [Hrow _]%Forall_cons _ Hc.
  destruct row; simpl in *; [lia|done].
Qed.

(** X6. On a matrix with at least one row and one class, a label count of 0
    ([min_labels] or [max_labels]) makes [binarize_prediction] raise
    [ZeroDivisionError]. *)
Theorem binarize_prediction_zero_count_raises (N_CLASSES : nat)
    (probabilities : array2 Q) (threshold : Q)
    (argsorted : option (array2 nat)) (min_labels max_labels : nat) :
  wf_array2 probabilities →
  shape1 probabilities = N_CLASSES →
  valid_argsorted probabilities argsorted →
  1 ≤ shape0 probabilities →
  1 ≤ N_CLASSES →
  min_labels = 0 ∨ max_labels = 0 →
  binarize_prediction N_CLASSES probabilities threshold argsorted
    min_labels max_labels = Raise ZeroDivisionError.
Proof.
  intros Hwf Hshape Hv Hrows Hcols Hzero.
  destruct (valid_argsorted_perm _ _ Hwf Hv) as [Hp [Hs0 Hs1]].
  destruct (rows_are_permutations_wf _ Hp) as [Hwfa Hin].
  assert (_make_mask (default (argsort probabilities) argsorted) 0
          = Raise ZeroDivisionError) as Hraise.
  { rewrite make_mask_zero, decide_False; [done|].
    apply join_rows_nonempty; [done|lia..]. }
  unfold binarize_prediction. rewrite decide_True by done. cbn zeta.
  destruct (decide (max_labels = 0)) as [->|Hmax].
  - by rewrite Hraise.
  - destruct Hzero as [->|?]; [|done].
    destruct (make_mask_ok _ max_labels Hwfa Hin Hmax) as (mx & -> & _).
    cbn [mbind result_bind]. by rewrite Hraise.
Qed.

Lemma binarize_prediction_zero_count_raises_witness :
  binarize_prediction 3 (Array2 3 [[0.9; 0.2; 0.05]]%Q) 0.15%Q None 0 10
  = Raise ZeroDivisionError.
Proof.
  apply (binarize_prediction_zero_count_raises 3
           (Array2 3 [[0.9; 0.2; 0.05]]%Q) 0.15%Q None 0 10).
  - repeat constructor.
  - reflexivity.
  - exact I.
  - unfold shape0. simpl. lia.
  - lia.
  - by left.
Defined.

(** X7. A matrix without rows (an empty batch) with the right number of
    columns gives a result without rows, whatever the label counts, 0
    included. *)
Theorem binarize_prediction_no_rows (N_CLASSES : nat)
    (threshold : Q) (argsorted : option (array2 nat))
    (min_labels max_labels : nat) :
  valid_argsorted (Array2 N_CLASSES []) argsorted →
  binarize_prediction N_CLASSES (Array2 N_CLASSES []) threshold argsorted
    min_labels max_labels = Ok (Array2 N_CLASSES []).
Proof.
  intros Hv.
  assert (default (argsort (Array2 N_CLASSES [])) argsorted
          = Array2 N_CLASSES []) as Ha.
  { destruct argsorted as [[c rs]|]; [|done]. simpl in *.
    destruct Hv as [[H0 H1] _]. unfold shape0 in H0. simpl in *.
    destruct rs; [|done]. by subst. }
  unfold binarize_prediction. simpl. rewrite decide_True by done.
  rewrite Ha. unfold _make_mask. simpl.
  unfold array_zip. rewrite decide_True by (by split).
  cbn [mbind result_bind]. rewrite decide_True by (by split). done.
Qed.

Lemma binarize_prediction_no_rows_witness :
  binarize_prediction 3 (Array2 3 []) 0.15%Q (Some (Array2 3 [])) 0 0
  = Ok (Array2 3 []).
Proof.
  apply (binarize_prediction_no_rows 3 0.15%Q (Some (Array2 3 [])) 0 0).
  split; [done|constructor].
Defined.

Lemma combine_row_no_ones (mx pr mn : list bool) :
  Forall (λ b, b = false) mx → Forall (λ b, b = false) mn →
  count_ones (combine_row mx pr mn) = 0.
Proof.
  unfold combine_row. intros Hmx. revert pr mn.
  induction Hmx as [|x mx -> _ IH]; intros [|p pr] mn Hmn; simpl; try done.
  destruct Hmn as [|n mn -> Hmn]; simpl; [done|].
  rewrite count_ones_cons. simpl. by apply IH.
Qed.

(** When [r * top_n] reaches the number of entries of the array, row [r] of
    the mask stays zero: [row_indices] cuts the flattened columns into
    pieces of [top_n], not into rows. *)
Lemma make_mask_row_beyond (a : array2 nat) (n : nat) (m : array2 bool)
    (r : nat) (row : list bool) :
  wf_array2 a → indices_in_range a → n ≠ 0 →
  _make_mask a n = Ok m →
  shape0 a * shape1 a ≤ r * n →
  rows m !! r = Some row →
  Forall (λ b, b = false) row.
Proof.
  intros Hwf Hin Hn Hm Hr Hrow.
  destruct (make_mask_ok a n Hwf Hin Hn) as (m' & Hm' & _ & _ & _ & Hat).
  rewrite Hm in Hm'. injection Hm' as <-.
  apply Forall_lookup. intros c b Hb.
  rewrite <- (mask_at_lookup m r c row b Hrow Hb), Hat.
  apply bool_decide_eq_false.
  intros (i & x & y & [= <- <-] & Hx & Hy)%elem_of_lookup_zip_with.
  rewrite list_lookup_fmap in Hx.
  destruct (seq 0 _ !! i) as [i0|] eqn:Hi; simplify_eq/=.
  apply lookup_seq in Hi as [-> Hi]. simpl in *.
  assert (length (mjoin (last_n n <$> rows a)) ≤ shape0 a * shape1 a) as Hlen.
  { etrans; [apply (length_join_le _ (shape1 a))|].
    - apply Forall_fmap. eapply Forall_impl; [exact Hwf|].
      intros l Hl. simpl in *. rewrite last_n_length by done. lia.
    - rewrite length_fmap. done. }
  pose proof (Nat.Div0.mul_div_le i n) as Hdiv. nia.
Qed.

(** X8. When both label counts exceed what the matrix holds, rows lose their
    labels: every row r with r * min_labels and r * max_labels at least the
    number of entries (rows times classes) comes out without a single one.
    (With counts of at least rows times classes, that is every row but the
    first.) *)
Theorem binarize_prediction_large_counts_empty_rows (N_CLASSES : nat)
    (probabilities : array2 Q) (threshold : Q)
    (argsorted : option (array2 nat)) (min_labels max_labels : nat) :
  wf_array2 probabilities →
  shape1 probabilities = N_CLASSES →
  valid_argsorted probabilities argsorted →
  1 ≤ min_labels → 1 ≤ max_labels →
  ∃ out,
    binarize_prediction N_CLASSES probabilities threshold argsorted
      min_labels max_labels = Ok out
    ∧ ∀ r row,
        shape0 probabilities * N_CLASSES ≤ r * min_labels →
        shape0 probabilities * N_CLASSES ≤ r * max_labels →
        rows out !! r = Some row →
        count_ones row = 0.
Proof.
  intros Hwf Hshape Hv Hmin Hmax.
  destruct (binarize_prediction_rows N_CLASSES probabilities argsorted
              min_labels max_labels Hwf Hshape Hv Hmin Hmax threshold)
    as (mx & mn & out & Hmx & Hmn & Hout & H0 & H1 & Hrows).
  destruct (valid_argsorted_perm _ _ Hwf Hv) as [Hp [Hs0 Hs1]].
  destruct (rows_are_permutations_wf _ Hp) as [Hwfa Hin].
  exists out. split; [done|].
  intros r row Hrmin Hrmax Hrow.
  destruct (Hrows r row Hrow)
    as (mxr & mnr & prow & Hmxr & Hmnr & Hprow & _ & _ & _ & ->).
  apply combine_row_no_ones.
  - eapply (make_mask_row_beyond _ max_labels mx r); eauto; [lia|].
    rewrite Hs0, Hs1, Hshape. done.
  - eapply (make_mask_row_beyond _ min_labels mn r); eauto; [lia|].
    rewrite Hs0, Hs1, Hshape. done.
Qed.

Lemma binarize_prediction_large_counts_empty_rows_witness :
  ∃ out,
    binarize_prediction 3
      (Array2 3 [[0.9; 0.2; 0.05]; [0.1; 0.8; 0.7]]%Q) 0.15%Q None 6 6 = Ok out
    ∧ ∀ r row,
        shape0 (Array2 3 [[0.9; 0.2; 0.05]; [0.1; 0.8; 0.7]]%Q) * 3 ≤ r * 6 →
        shape0 (Array2 3 [[0.9; 0.2; 0.05]; [0.1; 0.8; 0.7]]%Q) * 3 ≤ r * 6 →
        rows out !! r = Some row →
        count_ones row = 0.
Proof.
  apply (binarize_prediction_large_counts_empty_rows 3
           (Array2 3 [[0.9; 0.2; 0.05]; [0.1; 0.8; 0.7]]%Q) 0.15%Q None 6 6).
  - repeat constructor.
  - reflexivity.
  - exact I.
  - lia.
  - lia.
Defined.

(** The second row of that matrix, all of whose probabilities but one are
    above the threshold, indeed gets no label. *)
Example large_counts_second_row_empty :
  binarize_prediction 3
    (Array2 3 [[0.9; 0.2; 0.05]; [0.1; 0.8; 0.7]]%Q) 0.15%Q None 6 6
  = Ok (Array2 3 [[true; true; true]; [false; false; false]]).
Proof. vm_compute. reflexivity. Qed.

(** ** [_reduce_loss] on the 2-d loss of the BCE criterion *)


(** X9. For a batch of B >= 1 examples with C per-class losses each, all
    equal to c, [_reduce_loss] gives C * c: the per-class losses are summed,
    and only the examples are averaged. *)
Theorem reduce_loss_2d_constant (m : list (list Q)) (C : nat) (c : Q) :
  1 ≤ length m →
  Forall (λ row, length row = C ∧ Forall (λ x, (x == c)%Q) row) m →
  (_reduce_loss (Tensor2 m) == Q_of_nat C * c)%Q.
Proof.
  intros HB Hrows. pose proof (Q_of_nat_nonzero _ HB) as Hnz.
  unfold _reduce_loss. cbn [tensor_sum tensor_shape0].
  assert (Forall (λ x, (x == Q_of_nat C * c)%Q) (Qsum <$> m)) as Hsums.
  { apply Forall_fmap. eapply Forall_impl; [exact Hrows|].
    intros row [<- Hc]. simpl. by apply Qsum_const. }
  rewrite (Qsum_const _ _ Hsums), length_fmap. by field.
Qed.

Lemma reduce_loss_2d_constant_witness :
  (_reduce_loss (Tensor2 [[0.5; 0.5; 0.5]; [0.5; 0.5; 0.5]]%Q)
   == Q_of_nat 3 * 0.5)%Q.
Proof.
  apply (reduce_loss_2d_constant [[0.5; 0.5; 0.5]; [0.5; 0.5; 0.5]]%Q 3 0.5%Q).
  - simpl. lia.
  - repeat constructor.
Defined.

(** ** [validation]: the loss *)





(** With a smaller last batch the two means differ: the batches [1; 1; 1]
    and [5] give a [valid_loss] of 3, the mean over the four examples is 2. *)
Example validation_loss_unequal_batches :
  (validation_loss [Tensor1 [1; 1; 1]; Tensor1 [5]] == 3)%Q
  ∧ (Qsum [1; 1; 1; 5] / Q_of_nat 4 == 2)%Q.
Proof. split; reflexivity. Qed.

(** ** [validation]: the scores *)

Lemma Qmax_cases (x y : Q) : Qmax x y = x ∨ Qmax x y = y.
Proof.
  unfold Qmax, GenericMinMax.gmax. destruct (x ?= y)%Q; auto.
Qed.

Lemma foldr_Qmax_spec (x : Q) (l : list Q) :
  (foldr Qmax x l = x ∨ foldr Qmax x l ∈ l)
  ∧ (x <= foldr Qmax x l)%Q
  ∧ Forall (λ y, (y <= foldr Qmax x l)%Q) l.
Proof.
  induction l as [|y l (Hin & Hx & Hall)]; simpl.
  - split_and!; [by left|apply Qle_refl|constructor].
  - pose proof (Q.le_max_l y (foldr Qmax x l)) as Hl.
    pose proof (Q.le_max_r y (foldr Qmax x l)) as Hr.
    split_and!.
    + destruct (Qmax_cases y (foldr Qmax x l)) as [->| ->].
      * right. left.
      * destruct Hin as [?|?]; [by left|right; by right].
    + by apply Qle_trans with (foldr Qmax x l).
    + constructor; [done|]. eapply Forall_impl; [exact Hall|].
      intros z Hz. simpl in *. by apply Qle_trans with (foldr Qmax x l).
Qed.

Lemma list_max_spec (l : list Q) (m : Q) :
  list_max l = Ok m → m ∈ l ∧ Forall (λ y, (y <= m)%Q) l.
Proof.
  destruct l as [|x l]; [done|]. intros [= <-].
  destruct (foldr_Qmax_spec x l) as (Hin & Hx & Hall). split.
  - destruct Hin as [->|?]; [left|by right].
  - by constructor.
Qed.

Lemma mapM_result_ok {A B} (f : A → result B) (g : A → B) (l : list A) :
  (∀ x, x ∈ l → f x = Ok (g x)) → mapM f l = Ok (g <$> l).
Proof.
  induction l as [|x l IH]; intros Hf; [done|].
  cbn [mapM]. rewrite (Hf x) by left. cbn [mbind result_bind].
  rewrite IH; [done|]. intros y Hy. apply Hf. by right.
Qed.

(** X11. On a well-formed prediction matrix with [N_CLASSES] columns
    [validation] does not raise; it scores each threshold of the loss mode's
    list once, on the matrix [binarize_prediction] returns for it with the
    default label counts, and [valid_max_f2] is one of these scores and at
    least as large as each of them. *)
Theorem validation_scores (N_CLASSES : nat) (loss : loss_kind)
    (get_score : array2 bool → Q) (all_predictions : array2 Q)
    (all_losses : list Q) :
  wf_array2 all_predictions →
  shape1 all_predictions = N_CLASSES →
  ∃ scores metrics,
    validation N_CLASSES loss get_score all_predictions all_losses
      = Ok (scores, metrics)
    ∧ scores.*1 = threshs loss
    ∧ Forall (λ ts, ∃ y_pred,
                validation_binarize N_CLASSES all_predictions ts.1 = Ok y_pred
                ∧ ts.2 = get_score y_pred) scores
    ∧ valid_max_f2 metrics ∈ scores.*2
    ∧ Forall (λ ts, (ts.2 <= valid_max_f2 metrics)%Q) scores
    ∧ valid_loss metrics = np_mean all_losses.
Proof.
  intros Hwf Hshape.
  assert (valid_argsorted all_predictions (Some (argsort all_predictions)))
    as Hv.
  { split.
    - unfold same_shape, shape0, argsort. simpl. by rewrite length_fmap.
    - by apply argsort_perm. }
  assert (∀ t, ∃ y, validation_binarize N_CLASSES all_predictions t = Ok y)
    as Hbin.
  { intros t.
    destruct (binarize_prediction_rows N_CLASSES all_predictions
                (Some (argsort all_predictions)) 1 10 Hwf Hshape Hv
                ltac:(lia) ltac:(lia) t)
      as (_ & _ & out & _ & _ & Hout & _). by exists out. }
  set (g := λ t : Q,
         match validation_binarize N_CLASSES all_predictions t with
         | Ok y => (t, get_score y)
         | Raise _ => (t, 0%Q)
         end).
  assert (list_max ((g <$> threshs loss).*2)
          = Ok (foldr Qmax (g (hd 0%Q (threshs loss))).2
                  ((g <$> tail (threshs loss)).*2))) as Hmax.
  { by destruct loss. }
  exists (g <$> threshs loss). eexists. split_and!.
  - unfold validation. cbn zeta.
    rewrite (mapM_result_ok _ g).
    + cbn [mbind result_bind]. rewrite Hmax. reflexivity.
    + intros t _. unfold g. destruct (Hbin t) as [y Hy].
      unfold validation_binarize in *. by rewrite Hy.
  - rewrite <- list_fmap_compose. rewrite <- (list_fmap_id (threshs loss)) at 2.
    apply list_fmap_ext. intros _ t _. unfold g. simpl.
    by destruct (validation_binarize _ _ _).
  - apply Forall_fmap, Forall_true. intros t. simpl. unfold g.
    destruct (Hbin t) as [y Hy]. rewrite Hy. by exists y.
  - simpl. by apply (list_max_spec _ _ Hmax).
  - simpl. apply list_max_spec in Hmax as [_ Hall].
    by rewrite Forall_fmap in Hall.
  - reflexivity.
Qed.

Lemma validation_scores_witness :
  ∃ scores metrics,
    validation 3 LossBce (λ y, Q_of_nat (count_ones (mjoin (rows y))))
      (Array2 3 [[0.9; 0.2; 0.07]; [0.1; 0.1; 0.1]]%Q) [0.5; 0.25]%Q
      = Ok (scores, metrics)
    ∧ scores.*1 = threshs LossBce
    ∧ Forall (λ ts, ∃ y_pred,
                validation_binarize 3
                  (Array2 3 [[0.9; 0.2; 0.07]; [0.1; 0.1; 0.1]]%Q) ts.1
                  = Ok y_pred
                ∧ ts.2 = (λ y, Q_of_nat (count_ones (mjoin (rows y)))) y_pred)
        scores
    ∧ valid_max_f2 metrics ∈ scores.*2
    ∧ Forall (λ ts, (ts.2 <= valid_max_f2 metrics)%Q) scores
    ∧ valid_loss metrics = np_mean [0.5; 0.25]%Q.
Proof.
  apply (validation_scores 3 LossBce
           (λ y, Q_of_nat (count_ones (mjoin (rows y))))
           (Array2 3 [[0.9; 0.2; 0.07]; [0.1; 0.1; 0.1]]%Q) [0.5; 0.25]%Q).
  - repeat constructor.
  - reflexivity.
Defined.

(** ** [train]: gradient accumulation *)

Lemma Z_div_succ (i k : Z) :
  (0 < k)%Z →
  ((i + 1) / k = i / k + (if decide ((i + 1) mod k = 0) then 1 else 0))%Z.
Proof.
  intros Hk.
  pose proof (Z.div_mod (i + 1) k ltac:(lia)) as Hdm.
  pose proof (Z.mod_pos_bound (i + 1) k Hk) as Hr.
  case_decide as Hmod.
  - assert (((i + 1) / k - 1) = i / k)%Z; [|lia].
    apply (Z.div_unique i k _ (k - 1)); lia.
  - assert ((i + 1) / k = i / k)%Z; [|lia].
    apply (Z.div_unique i k _ ((i + 1) mod k - 1)); lia.
Qed.

Lemma batch_loop_steps {Params : Type} (args : train_args)
    (lr_func : option (Z → Q)) (batches : list batch) (i : Z)
    (s s' : train_state Params) :
  (0 < args_step args)%Z →
  batch_loop args lr_func i batches s = Ok s' →
  (step s' = step s
             + ((i + Z.of_nat (length batches)) / args_step args
                - i / args_step args))%Z
  ∧ (Z.of_nat (opt_steps (optimizer s'))
     = Z.of_nat (opt_steps (optimizer s))
       + ((i + Z.of_nat (length batches)) / args_step args
          - i / args_step args))%Z.
Proof.
  intros Hk. revert i s. induction batches as [|b rest IH]; intros i s Hloop.
  - injection Hloop as <-. simpl. rewrite Z.add_0_r. lia.
  - cbn [batch_loop] in Hloop. unfold batch_iter in Hloop.
    rewrite decide_False in Hloop by lia.
    pose proof (Z_div_succ i (args_step args) Hk) as Hsucc.
    replace (i + Z.of_nat (length (b :: rest)))%Z
      with ((i + 1) + Z.of_nat (length rest))%Z by (simpl; lia).
    destruct (decide (((i + 1) `mod` args_step args)%Z = 0%Z));
      cbn [mbind result_bind] in Hloop;
      apply IH in Hloop as [Hstep Hopt];
      unfold optimizer_step, log in *; simpl in *; lia.
Qed.

(** X12. With one optimizer step every k >= 1 batches ([args.step] = k), the
    batch loop of an epoch with n batches does not raise and takes n // k
    optimizer steps: [step] goes up by n // k, and the last n mod k batches
    only add to the gradients. *)
Theorem batch_loop_takes_floor_steps {Params : Type} (args : train_args)
    (lr_func : option (Z → Q)) (batches : list batch)
    (s : train_state Params) :
  (0 < args_step args)%Z →
  ∃ s',
    batch_loop args lr_func 0 batches s = Ok s'
    ∧ (step s' = step s + Z.of_nat (length batches) / args_step args)%Z
    ∧ (Z.of_nat (opt_steps (optimizer s'))
       = Z.of_nat (opt_steps (optimizer s))
         + Z.of_nat (length batches) / args_step args)%Z.
Proof.
  intros Hk.
  destruct (batch_loop_total args lr_func batches 0 s ltac:(lia)) as [s' Hs'].
  exists s'. split; [done|].
  apply batch_loop_steps in Hs' as [Hstep Hopt]; [|done].
  rewrite Z.add_0_l in Hstep, Hopt.
  rewrite Z.div_0_l in Hstep, Hopt by lia. lia.
Qed.

Lemma batch_loop_takes_floor_steps_witness :
  ∃ s',
    batch_loop (Args 1 100 2 SchedNone 0 false) None 0
      [Batch 2 (Tensor1 [1; 2]%Q); Batch 2 (Tensor1 [1; 2]%Q);
       Batch 2 (Tensor1 [1; 2]%Q)]
      (TrainState 7 (Finite 5) 1 0 1 [5]%Q (Optimizer () 1%Q 7) None None [])
    = Ok s'
    ∧ (step s' = 7 + Z.of_nat 3 / 2)%Z
    ∧ (Z.of_nat (opt_steps (optimizer s')) = Z.of_nat 7 + Z.of_nat 3 / 2)%Z.
Proof.
  apply (batch_loop_takes_floor_steps (Args 1 100 2 SchedNone 0 false) None
           [Batch 2 (Tensor1 [1; 2]%Q); Batch 2 (Tensor1 [1; 2]%Q);
            Batch 2 (Tensor1 [1; 2]%Q)]
           (TrainState 7 (Finite 5) 1 0 1 [5]%Q (Optimizer () 1%Q 7)
              None None [])).
  simpl. lia.
Defined.

(** ** [train]: what an epoch can do *)

Lemma run_epoch_inv {Params : Type} (args : train_args) (params : Params)
    (patience max_lr_changes : nat) (lr_func : option (Z → Q))
    (epoch : Z) (run : epoch_run) (s : train_state Params)
    (o : outcome Params) :
  run_epoch args params patience max_lr_changes lr_func epoch run s = Ok o →
  ∃ batches sb,
    batch_loop args lr_func 0 batches (log (BatchLoopStarted epoch) s) = Ok sb
    ∧ ((∃ metrics,
          run = Completes batches metrics
          ∧ o = after_batches args params patience max_lr_changes epoch
                  metrics sb)
       ∨ (run = KeyboardInterrupt batches
          ∧ o = Return false (save epoch (log (Interrupted epoch) sb)))).
Proof.
  unfold run_epoch. intros Hrun.
  destruct run as [batches metrics|batches];
    destruct (batch_loop args lr_func 0 batches (log (BatchLoopStarted epoch) s))
      as [sb|] eqn:Hsb; try done;
    cbn [mbind result_bind] in Hrun; injection Hrun as <-;
    exists batches, sb; (split; [done|]).
  - left. by exists metrics.
  - by right.
Qed.

(** A property of the state that every epoch keeps holds when the loop
    ends. *)
Lemma epochs_loop_invariant {Params : Type} (args : train_args)
    (params : Params) (patience max_lr_changes : nat)
    (lr_func : option (Z → Q)) (env : Z → epoch_run)
    (I : train_state Params → Prop) :
  (∀ epoch s o,
     I s →
     run_epoch args params patience max_lr_changes lr_func epoch
       (env epoch) s = Ok o →
     match o with
     | Continue s' | Break s' | Return _ s' => I s'
     end) →
  ∀ epochs s b s',
    I s →
    epochs_loop args params patience max_lr_changes lr_func env epochs s
      = Ok (b, s') →
    I s'.
Proof.
  intros Hkeep epochs. induction epochs as [|epoch rest IH];
    intros s b s' Hs Hloop.
  - by injection Hloop as <- <-.
  - cbn [epochs_loop] in Hloop.
    destruct (run_epoch _ _ _ _ _ epoch _ s) as [o|] eqn:Hrun; [|done].
    cbn [mbind result_bind] in Hloop.
    pose proof (Hkeep _ _ _ Hs Hrun) as Ho.
    destruct o as [s1|s1|b1 s1].
    + by eapply IH.
    + by injection Hloop as <- <-.
    + by injection Hloop as <- <-.
Qed.

(** ** [train]: a scheduler, or a patience of 0, switches the decay off *)

Lemma after_batches_no_patience {Params : Type} (args : train_args)
    (params : Params) (patience max_lr_changes : nat) (epoch : Z)
    (metrics : valid_metrics) (s : train_state Params) :
  args_scheduler args ≠ SchedNone ∨ patience = 0 →
  ∃ s',
    after_batches args params patience max_lr_changes epoch metrics s
      = Continue s'
    ∧ lr s' = lr s
    ∧ lr_changes s' = lr_changes s
    ∧ optimizer s' = optimizer s
    ∧ decay_epochs (events s') = decay_epochs (events s).
Proof.
  intros Hoff. rewrite after_batches_cases. cbn zeta.
  assert (decay_due args patience epoch
            (validated epoch (effective_loss args metrics) s) = false) as ->.
  { unfold decay_due. destruct Hoff as [Hsched| ->].
    - rewrite (bool_decide_eq_false_2 (args_scheduler args = SchedNone))
        by done.
      by rewrite andb_false_r.
    - done. }
  destruct (improves _ _); eexists; (split; [done|]); simpl;
    rewrite ?decay_epochs_app; simpl; by rewrite ?app_nil_r.
Qed.

(** X13. When a scheduler is configured, or [patience] is 0, [train] never
    counts a decay event: at the end of the run [lr_changes] is 0, the log
    holds no decay, and the optimizer is still the one created at the start
    (same parameters). *)
Theorem train_without_patience_never_decays {Params : Type}
    (args : train_args) (params : Params) (existing : option checkpoint)
    (env : Z → epoch_run) (n_epochs : option Z)
    (patience max_lr_changes : nat) (b : bool) (s : train_state Params) :
  args_scheduler args ≠ SchedNone ∨ patience = 0 →
  train args params existing env n_epochs patience max_lr_changes
    = Ok (b, s) →
  lr_changes s = 0
  ∧ decay_epochs (events s) = []
  ∧ opt_params (optimizer s) = params.
Proof.
  intros Hoff Htrain. unfold train in Htrain.
  destruct (make_lr_func _ _ _) as [lr_func|] eqn:Hf; [|done].
  cbn [mbind result_bind] in Htrain.
  eapply (epochs_loop_invariant _ _ _ _ _ _
            (λ s, lr_changes s = 0 ∧ decay_epochs (events s) = []
                  ∧ opt_params (optimizer s) = params)) in Htrain;
    [done| |done].
  clear Htrain. intros epoch s0 o (Hc & Hd & Hp) Hrun.
  apply run_epoch_inv in Hrun as (batches & sb & Hsb & Hcases).
  apply batch_loop_frame in Hsb
    as (_ & Hc' & _ & _ & _ & _ & Hp' & _ & evs & Hev & Hback).
  simpl in Hc', Hp', Hev.
  assert (decay_epochs (events sb) = []) as Hd'.
  { rewrite Hev, !decay_epochs_app, Hd, (decay_epochs_backward evs Hback).
    done. }
  destruct Hcases as [(metrics & _ & ->)|[_ ->]].
  - destruct (after_batches_no_patience args params patience max_lr_changes
                epoch metrics sb Hoff)
      as (s' & -> & _ & Hc'' & Ho & Hd'').
    split_and!; congruence.
  - simpl. rewrite !decay_epochs_app, Hd'. simpl. split_and!; congruence.
Qed.

Lemma train_without_patience_never_decays_witness :
  ∃ s,
    train (Args 1 100 1 SchedNone 0 false) () None (losses_env [1]%Q)
      (Some 9%Z) 0 2 = Ok (true, s)
    ∧ lr_changes s = 0
    ∧ decay_epochs (events s) = []
    ∧ opt_params (optimizer s) = ().
Proof.
  eexists. split; [vm_compute; reflexivity|].
  apply (train_without_patience_never_decays
           (Args 1 100 1 SchedNone 0 false) () None (losses_env [1]%Q)
           (Some 9%Z) 0 2 true).
  - by right.
  - vm_compute. reflexivity.
Defined.

(** ** [train]: the best validation loss *)

Lemma improves_spec (v : Q) (best : vloss) :
  (improves v best = true
   → ∀ q, best_le best q → (v <= q)%Q)
  ∧ (improves v best = false → best_le best v).
Proof.
  destruct best as [b|]; simpl; unfold Qltb.
  - destruct (Qle_bool b v) eqn:Hle; simpl.
    + apply Qle_bool_iff in Hle. split; [done|]. by intros _.
    + split; [|done]. intros _ q Hq.
      destruct (Qlt_le_dec v b) as [Hlt|Hge].
      * apply Qlt_le_weak. by apply Qlt_le_trans with b.
      * apply Qle_bool_iff in Hge. congruence.
  - split; [by intros _ q []|done].
Qed.

(** X14. At the end of a run, [best_valid_loss] is the one the run started
    with or one of the validation losses of this run, and it is no larger
    than any of them. *)
Theorem train_best_valid_loss_is_minimum {Params : Type}
    (args : train_args) (params : Params) (existing : option checkpoint)
    (env : Z → epoch_run) (n_epochs : option Z)
    (patience max_lr_changes : nat) (b : bool) (s : train_state Params) :
  train args params existing env n_epochs patience max_lr_changes
    = Ok (b, s) →
  let best0 := ck_best_valid_loss (default (Checkpoint 1 0 Infinity) existing) in
  (best_valid_loss s = best0
   ∨ ∃ v, v ∈ valid_losses s ∧ best_valid_loss s = Finite v)
  ∧ Forall (λ v, best_le (best_valid_loss s) v) (valid_losses s)
  ∧ ∀ q, best_le best0 q → best_le (best_valid_loss s) q.
Proof.
  intros Htrain best0. unfold train in Htrain.
  destruct (make_lr_func _ _ _) as [lr_func|] eqn:Hf; [|done].
  cbn [mbind result_bind] in Htrain.
  eapply (epochs_loop_invariant _ _ _ _ _ _
            (λ s, (best_valid_loss s = best0
                   ∨ ∃ v, v ∈ valid_losses s ∧ best_valid_loss s = Finite v)
                  ∧ Forall (λ v, best_le (best_valid_loss s) v) (valid_losses s)
                  ∧ ∀ q, best_le best0 q → best_le (best_valid_loss s) q))
    in Htrain; [done| |].
  2:{ simpl. split_and!; [by left|constructor|done]. }
  clear Htrain. intros epoch s0 o (Hfrom & Hall & Hmono) Hrun.
  apply run_epoch_inv in Hrun as (batches & sb & Hsb & Hcases).
  apply batch_loop_frame in Hsb
    as (Hb & _ & _ & Hl & _ & _ & _ & _ & _).
  simpl in Hb, Hl.
  destruct Hcases as [(metrics & _ & ->)|[_ ->]].
  2:{ simpl. rewrite Hb, Hl. done. }
  rewrite after_batches_cases. cbn zeta.
  set (v := effective_loss args metrics).
  destruct (improves_spec v (best_valid_loss sb)) as [Himp Hnot].
  assert (∀ s' : train_state Params,
            best_valid_loss s' = best_valid_loss s0 →
            valid_losses s' = valid_losses s0 ++ [v] →
            improves v (best_valid_loss sb) = false →
            (best_valid_loss s' = best0
             ∨ ∃ w, w ∈ valid_losses s' ∧ best_valid_loss s' = Finite w)
            ∧ Forall (λ w, best_le (best_valid_loss s') w) (valid_losses s')
            ∧ ∀ q, best_le best0 q → best_le (best_valid_loss s') q) as Hsame.
  { intros s' Hb' Hl' Hno. rewrite Hb', Hl'. split_and!.
    - destruct Hfrom as [?|(w & Hw & ?)]; [by left|].
      right. exists w. split; [|done]. apply elem_of_app. by left.
    - apply Forall_app. split; [done|]. constructor; [|done].
      rewrite <- Hb. by apply Hnot.
    - done. }
  destruct (improves v (best_valid_loss sb)) eqn:Hi.
  - simpl. rewrite Hl. specialize (Himp eq_refl). rewrite Hb in Himp.
    split_and!.
    + right. exists v. split; [|done]. apply elem_of_app. right. left.
    + apply Forall_app. split.
      * eapply Forall_impl; [exact Hall|]. intros w Hw. simpl. by apply Himp.
      * constructor; [simpl; apply Qle_refl|done].
    + intros q Hq. simpl. apply Himp. by apply Hmono.
  - destruct (decay_due _ _ _ _); [destruct (decide _)|];
      apply Hsame; simpl; congruence.
Qed.

Lemma train_best_valid_loss_is_minimum_witness :
  ∃ s,
    train (Args 1 100 1 SchedNone 0 false) () None (losses_env [3; 2; 4]%Q)
      (Some 3%Z) 2 2 = Ok (true, s)
    ∧ (best_valid_loss s = Infinity
       ∨ ∃ v, v ∈ valid_losses s ∧ best_valid_loss s = Finite v)
    ∧ Forall (λ v, best_le (best_valid_loss s) v) (valid_losses s)
    ∧ ∀ q, best_le Infinity q → best_le (best_valid_loss s) q.
Proof.
  eexists. split; [vm_compute; reflexivity|].
  apply (train_best_valid_loss_is_minimum
           (Args 1 100 1 SchedNone 0 false) () None (losses_env [3; 2; 4]%Q)
           (Some 3%Z) 2 2 true).
  vm_compute. reflexivity.
Defined.

(** ** [train]: the rate under the patience policy *)

Lemma batch_loop_rate {Params : Type} (args : train_args)
    (batches : list batch) (i : Z) (s s' : train_state Params) :
  batch_loop args None i batches s = Ok s' →
  opt_lr (optimizer s) = lr s →
  lr s' = lr s ∧ opt_lr (optimizer s') = lr s'.
Proof.
  revert i s. induction batches as [|b rest IH]; intros i s Hloop Hopt.
  - by injection Hloop as <-.
  - cbn [batch_loop] in Hloop. unfold batch_iter in Hloop.
    destruct (decide (args_step args = 0%Z)); [done|].
    destruct (decide (((i + 1) `mod` args_step args)%Z = 0%Z));
      cbn [mbind result_bind] in Hloop; apply IH in Hloop; done.
Qed.

Lemma fifth_of_rate (x x0 : Q) (d : nat) :
  (x == x0 / inject_Z (5 ^ Z.of_nat d))%Q →
  (x / 5 == x0 / inject_Z (5 ^ Z.of_nat (S d)))%Q.
Proof.
  intros Hx.
  assert (0 < 5 ^ Z.of_nat d)%Z as Hpos by (apply Z.pow_pos_nonneg; lia).
  assert (¬ (inject_Z (5 ^ Z.of_nat d) == 0)%Q) as Hnz.
  { apply inject_Z_nonzero. lia. }
  rewrite Nat2Z.inj_succ, Z.pow_succ_r by lia.
  rewrite inject_Z_mult, Hx. change (inject_Z 5) with 5%Q. by field.
Qed.

(** X15. Without a scheduler the rate at the end of a run is the initial
    rate [args.lr] divided by 5 once for each decay the log records; there
    are at most [max_lr_changes] of them, and the optimizer holds that
    rate. *)
Theorem train_rate_is_initial_over_power_of_5 {Params : Type}
    (args : train_args) (params : Params) (existing : option checkpoint)
    (env : Z → epoch_run) (n_epochs : option Z)
    (patience max_lr_changes : nat) (b : bool) (s : train_state Params) :
  args_scheduler args = SchedNone →
  train args params existing env n_epochs patience max_lr_changes
    = Ok (b, s) →
  let decays := length (decay_epochs (events s)) in
  (lr s == args_lr args / inject_Z (5 ^ Z.of_nat decays))%Q
  ∧ decays ≤ max_lr_changes
  ∧ opt_lr (optimizer s) = lr s.
Proof.
  intros Hsched Htrain. unfold train in Htrain. rewrite Hsched in Htrain.
  cbn [make_lr_func mbind result_bind] in Htrain.
  eapply (epochs_loop_invariant _ _ _ _ _ _
            (λ s, (lr s == args_lr args
                           / inject_Z (5 ^ Z.of_nat
                                         (length (decay_epochs (events s)))))%Q
                  ∧ opt_lr (optimizer s) = lr s
                  ∧ length (decay_epochs (events s)) ≤ lr_changes s
                  ∧ length (decay_epochs (events s)) ≤ max_lr_changes))
    in Htrain.
  - cbn zeta. destruct Htrain as (? & ? & ? & ?). done.
  - clear Htrain. intros epoch s0 o (Hlr & Hopt & Hdc & Hdm) Hrun.
    apply run_epoch_inv in Hrun as (batches & sb & Hsb & Hcases).
    destruct (batch_loop_rate _ _ _ _ _ Hsb Hopt) as [Hlr' Hopt'].
    apply batch_loop_frame in Hsb
      as (_ & Hc & _ & _ & _ & _ & _ & _ & evs & Hev & Hback).
    simpl in Hlr', Hc, Hev. rewrite Hlr' in Hopt'.
    assert (decay_epochs (events sb) = decay_epochs (events s0)) as Hd.
    { rewrite Hev, !decay_epochs_app, (decay_epochs_backward evs Hback).
      simpl. by rewrite !app_nil_r. }
    destruct Hcases as [(metrics & _ & ->)|[_ ->]].
    2:{ simpl. rewrite !decay_epochs_app. simpl. rewrite !app_nil_r.
        rewrite Hd, Hlr', Hc. done. }
    rewrite after_batches_cases. cbn zeta.
    destruct (improves _ _).
    { simpl. rewrite !decay_epochs_app. simpl. rewrite !app_nil_r.
      rewrite Hd, Hlr', Hc. done. }
    destruct (decay_due _ _ _ _).
    2:{ simpl. rewrite !decay_epochs_app. simpl. rewrite !app_nil_r.
        rewrite Hd, Hlr', Hc. done. }
    destruct (decide _) as [Hgt|Hngt].
    + simpl. rewrite !decay_epochs_app. simpl. rewrite !app_nil_r.
      rewrite Hd, Hlr', Hc. split_and!; [done|done|lia|done].
    + simpl. rewrite !decay_epochs_app. simpl. rewrite !app_nil_r.
      rewrite Hd, length_app. simpl.
      replace (length (decay_epochs (events s0)) + 1)
        with (S (length (decay_epochs (events s0)))) by lia.
      split_and!; [|done|lia|lia].
      apply fifth_of_rate. by rewrite Hlr'.
  - simpl. split_and!; [|done|lia|lia]. simpl.
    change (inject_Z (5 ^ Z.of_nat 0)) with 1%Q. by field.
Qed.

Lemma train_rate_is_initial_over_power_of_5_witness :
  ∃ s,
    train (Args 1 100 1 SchedNone 0 false) () None (losses_env [1]%Q)
      (Some 100%Z) 1 2 = Ok (true, s)
    ∧ let decays := length (decay_epochs (events s)) in
      (lr s == 1 / inject_Z (5 ^ Z.of_nat decays))%Q
      ∧ decays ≤ 2
      ∧ opt_lr (optimizer s) = lr s.
Proof.
  eexists. split; [vm_compute; reflexivity|].
  apply (train_rate_is_initial_over_power_of_5
           (Args 1 100 1 SchedNone 0 false) () None (losses_env [1]%Q)
           (Some 100%Z) 1 2 true).
  - reflexivity.
  - vm_compute. reflexivity.
Defined.

(** ** [train]: the epochs that are run *)

Lemma started_epochs_app (evs evs' : list event) :
  started_epochs (evs ++ evs') = started_epochs evs ++ started_epochs evs'.
Proof. apply omap_app. Qed.

Lemma started_epochs_backward (evs : list event) :
  Forall is_backward evs → started_epochs evs = [].
Proof.
  induction 1 as [|ev evs [q ->] _ IH]; [done|].
  exact IH.
Qed.

Lemma run_epoch_started {Params : Type} (args : train_args) (params : Params)
    (patience max_lr_changes : nat) (lr_func : option (Z → Q))
    (epoch : Z) (run : epoch_run) (s : train_state Params)
    (o : outcome Params) :
  run_epoch args params patience max_lr_changes lr_func epoch run s = Ok o →
  match o with
  | Continue s' =>
      started_epochs (events s') = started_epochs (events s) ++ [epoch]
  | Break s' =>
      started_epochs (events s') = started_epochs (events s) ++ [epoch]
      ∧ max_lr_changes < lr_changes s'
  | Return b s' =>
      started_epochs (events s') = started_epochs (events s) ++ [epoch]
      ∧ b = false
  end.
Proof.
  intros Hrun.
  apply run_epoch_inv in Hrun as (batches & sb & Hsb & Hcases).
  apply batch_loop_frame in Hsb
    as (_ & _ & _ & _ & _ & _ & _ & _ & evs & Hev & Hback).
  simpl in Hev.
  assert (started_epochs (events sb) = started_epochs (events s) ++ [epoch])
    as Hst.
  { rewrite Hev, !started_epochs_app, (started_epochs_backward evs Hback).
    simpl. by rewrite app_nil_r. }
  destruct Hcases as [(metrics & _ & ->)|[_ ->]].
  2:{ simpl. rewrite !started_epochs_app. simpl. by rewrite !app_nil_r. }
  rewrite after_batches_cases. cbn zeta.
  destruct (improves _ _); [|destruct (decay_due _ _ _ _);
                              [destruct (decide _)|]];
    simpl; rewrite ?started_epochs_app; simpl; rewrite ?app_nil_r;
    done.
Qed.

Lemma epochs_loop_started {Params : Type} (args : train_args)
    (params : Params) (patience max_lr_changes : nat)
    (lr_func : option (Z → Q)) (env : Z → epoch_run) (epochs : list Z)
    (s : train_state Params) (b : bool) (s' : train_state Params) :
  epochs_loop args params patience max_lr_changes lr_func env epochs s
    = Ok (b, s') →
  ∃ ran rest,
    epochs = ran ++ rest
    ∧ started_epochs (events s') = started_epochs (events s) ++ ran
    ∧ (rest = [] ∨ b = false ∨ max_lr_changes < lr_changes s').
Proof.
  revert s. induction epochs as [|epoch later IH]; intros s Hloop.
  - injection Hloop as <- <-. exists [], [].
    split_and!; [done|by rewrite app_nil_r|by left].
  - cbn [epochs_loop] in Hloop.
    destruct (run_epoch _ _ _ _ _ epoch _ s) as [o|] eqn:Hrun; [|done].
    cbn [mbind result_bind] in Hloop.
    apply run_epoch_started in Hrun.
    destruct o as [s1|s1|b1 s1].
    + destruct (IH s1 Hloop) as (ran & rest & -> & Hst & Hend).
      exists (epoch :: ran), rest. split_and!; [done| |done].
      rewrite Hst, Hrun, <- app_assoc. done.
    + injection Hloop as <- <-. destruct Hrun as [Hst Hlim].
      exists [epoch], later. split_and!; [done|done|by right; right].
    + injection Hloop as <- <-. destruct Hrun as [Hst ->].
      exists [epoch], later. split_and!; [done|done|by right; left].
Qed.

(** X16. [train] runs the epochs from the start epoch (1, or the one of the
    checkpoint) upwards, each once and none skipped; unless it was
    interrupted or counted more than [max_lr_changes] decay events, it runs
    all of them up to [n_epochs]. *)
Theorem train_runs_epochs_in_order {Params : Type}
    (args : train_args) (params : Params) (existing : option checkpoint)
    (env : Z → epoch_run) (n_epochs : option Z)
    (patience max_lr_changes : nat) (b : bool) (s : train_state Params) :
  train args params existing env n_epochs patience max_lr_changes
    = Ok (b, s) →
  let first := ck_epoch (default (Checkpoint 1 0 Infinity) existing) in
  let last :=
    match n_epochs with
    | Some n => if decide (n = 0%Z) then args_n_epochs args else n
    | None => args_n_epochs args
    end in
  ∃ rest,
    epoch_range first last = started_epochs (events s) ++ rest
    ∧ (rest = [] ∨ b = false ∨ max_lr_changes < lr_changes s).
Proof.
  intros Htrain. unfold train in Htrain.
  destruct (make_lr_func _ _ _) as [lr_func|] eqn:Hf; [|done].
  cbn [mbind result_bind] in Htrain.
  apply epochs_loop_started in Htrain as (ran & rest & Hrange & Hst & Hend).
  simpl in Hst. cbn zeta. exists rest. by rewrite Hst.
Qed.

Lemma train_runs_epochs_in_order_witness :
  ∃ s rest,
    train (Args 1 100 1 SchedNone 0 false) () (Some (Checkpoint 3 40 (Finite 2)))
      (losses_env [3; 2; 4]%Q) (Some 6%Z) 2 2 = Ok (true, s)
    ∧ epoch_range 3 6 = started_epochs (events s) ++ rest
    ∧ (rest = [] ∨ true = false ∨ 2 < lr_changes s).
Proof.
  eexists.
  destruct (train_runs_epochs_in_order
              (Args 1 100 1 SchedNone 0 false) ()
              (Some (Checkpoint 3 40 (Finite 2))) (losses_env [3; 2; 4]%Q)
              (Some 6%Z) 2 2 true _ ltac:(vm_compute; reflexivity))
    as (rest & Hrange & Hend).
  exists rest. split; [vm_compute; reflexivity|]. split; [exact Hrange|exact Hend].
Defined.

(** ** [train]: errors of the configuration *)

(** X17. With a scheduler configured and a schedule length of 0 (the default
    of [--schedule-length]), [train] raises [ZeroDivisionError] before the
    first epoch; with a scheduler name other than 'one_cycle' and 'linear'
    and a length that is not 0 it raises [UnboundLocalError]. *)
Theorem train_scheduler_configuration_errors {Params : Type}
    (args : train_args) (params : Params) (existing : option checkpoint)
    (env : Z → epoch_run) (n_epochs : option Z)
    (patience max_lr_changes : nat) :
  (args_scheduler args ≠ SchedNone → args_schedule_length args = 0%Z →
   train args params existing env n_epochs patience max_lr_changes
     = Raise ZeroDivisionError)
  ∧ (args_scheduler args = SchedOther → args_schedule_length args ≠ 0%Z →
     train args params existing env n_epochs patience max_lr_changes
       = Raise UnboundLocalError).
Proof.
  split.
  - intros Hsched Hlen. unfold train, make_lr_func, slope_of.
    rewrite Hlen. by destruct (args_scheduler args).
  - intros Hsched Hlen. unfold train, make_lr_func, slope_of.
    rewrite Hsched. by rewrite decide_False.
Qed.

Lemma train_scheduler_configuration_errors_witness :
  train (Args 1 100 1 SchedOneCycle 0 false) () None (losses_env []) None 2 2
    = Raise ZeroDivisionError
  ∧ train (Args 1 100 1 SchedOther 5 false) () None (losses_env []) None 2 2
    = Raise UnboundLocalError.
Proof.
  split.
  - apply (train_scheduler_configuration_errors
             (Args 1 100 1 SchedOneCycle 0 false) () None (losses_env [])
             None 2 2); done.
  - apply (train_scheduler_configuration_errors
             (Args 1 100 1 SchedOther 5 false) () None (losses_env [])
             None 2 2); done.
Defined.

Lemma make_lr_func_ok (args : train_args) (step0 : Z) :
  scheduler_ok args →
  ∃ lr_func,
    make_lr_func (args_scheduler args) (args_schedule_length args) step0
    = Ok lr_func.
Proof.
  unfold scheduler_ok, make_lr_func, slope_of.
  intros [->|[Hlen Hsched]]; [by eexists|].
  rewrite decide_False by done.
  destruct (args_scheduler args); [by eexists..|done].
Qed.



(** ** [train]: what the checkpoints record *)

(** X19. The checkpoint of an epoch is written before its validation. After
    an epoch that improves the validation loss, [model.pt] and its copy
    [best-model.pt] therefore hold the next epoch number, the current step
    and the best loss from before this epoch, not the loss that earned the
    copy. *)
Theorem improving_epoch_saves_previous_best {Params : Type}
    (args : train_args) (params : Params) (patience max_lr_changes : nat)
    (lr_func : option (Z → Q)) (epoch : Z) (batches : list batch)
    (metrics : valid_metrics) (s : train_state Params) :
  args_step args ≠ 0%Z →
  improves (effective_loss args metrics) (best_valid_loss s) = true →
  ∃ s',
    run_epoch args params patience max_lr_changes lr_func epoch
      (Completes batches metrics) s = Ok (Continue s')
    ∧ best_valid_loss s' = Finite (effective_loss args metrics)
    ∧ model_pt s'
      = Some (Checkpoint (epoch + 1) (step s') (best_valid_loss s))
    ∧ best_model_pt s' = model_pt s'.
Proof.
  intros Hstep Himp. unfold run_epoch.
  destruct (batch_loop_total args lr_func batches 0
              (log (BatchLoopStarted epoch) s) Hstep) as [sb Hsb].
  rewrite Hsb. cbn [mbind result_bind].
  apply batch_loop_frame in Hsb as (Hb & _).
  simpl in Hb. rewrite after_batches_cases. cbn zeta.
  rewrite Hb, Himp. eexists. split; [done|]. simpl. by rewrite Hb.
Qed.

Lemma improving_epoch_saves_previous_best_witness :
  let s := TrainState 7 (Finite 5) 1 0 1 [5]%Q (Optimizer () 1%Q 7)
             None None [] in
  ∃ s',
    run_epoch (Args 1 100 1 SchedNone 0 false) () 2 2 None 2
      (Completes [Batch 2 (Tensor1 [1; 2]%Q)] (ValidMetrics 0 3)) s
    = Ok (Continue s')
    ∧ best_valid_loss s'
      = Finite (effective_loss (Args 1 100 1 SchedNone 0 false)
                  (ValidMetrics 0 3))
    ∧ model_pt s' = Some (Checkpoint (2 + 1) (step s') (best_valid_loss s))
    ∧ best_model_pt s' = model_pt s'.
Proof.
  apply (improving_epoch_saves_previous_best
           (Args 1 100 1 SchedNone 0 false) () 2 2 None 2
           [Batch 2 (Tensor1 [1; 2]%Q)] (ValidMetrics 0 3)).
  - simpl. lia.
  - reflexivity.
Defined.

(** ** [main]: the warm-up call and the full training *)


(** X20. A fresh run of a pretrained model (no checkpoint, no
    [--prev-model]): the first call of [train] runs epoch 1 alone, on the
    fresh parameters; when that epoch completes, the second call, on all
    parameters, resumes from the checkpoint the first one left, which holds
    epoch 2, the step count reached and [best_valid_loss] = inf: the
    validation loss of the warm-up epoch is not carried over. *)
Theorem main_train_fresh_run {Params : Type} (args : train_args)
    (args_patience : nat) (fresh_params all_params : Params)
    (env : Z → epoch_run) (batches : list batch) (metrics : valid_metrics) :
  args_step args ≠ 0%Z →
  scheduler_ok args →
  env 1%Z = Completes batches metrics →
  ∃ s1,
    train args fresh_params None env (Some 1%Z) args_patience 2
      = Ok (true, s1)
    ∧ started_epochs (events s1) = [1%Z]
    ∧ opt_params (optimizer s1) = fresh_params
    ∧ best_valid_loss s1 = Finite (effective_loss args metrics)
    ∧ model_pt s1 = Some (Checkpoint 2 (step s1) Infinity)
    ∧ main_train args true true args_patience fresh_params all_params None env
      = (r2 ← train args all_params (Some (Checkpoint 2 (step s1) Infinity))
                env None args_patience 2;
         Ok [(true, s1); r2]).
Proof.
  intros Hstep Hok Henv.
  destruct (make_lr_func_ok args 0 Hok) as [lr_func Hf].
  assert (∃ s1,
            train args fresh_params None env (Some 1%Z) args_patience 2
              = Ok (true, s1)
            ∧ started_epochs (events s1) = [1%Z]
            ∧ opt_params (optimizer s1) = fresh_params
            ∧ best_valid_loss s1 = Finite (effective_loss args metrics)
            ∧ model_pt s1 = Some (Checkpoint 2 (step s1) Infinity))
    as (s1 & Htrain & Hst & Hp & Hb & Hm).
  { unfold train. simpl. rewrite Hf. cbn [mbind result_bind].
    change (1 + Z.of_nat 0)%Z with 1%Z.
    rewrite Henv. unfold run_epoch.
    match goal with
    | |- context [batch_loop args lr_func 0 batches ?s0] =>
        destruct (batch_loop_total args lr_func batches 0 s0 Hstep)
          as [sb Hsb]; rewrite Hsb;
        apply batch_loop_frame in Hsb
          as (Hb & _ & _ & _ & _ & _ & Hp & _ & evs & Hev & Hback)
    end.
    cbn [mbind result_bind]. simpl in Hb, Hp.
    rewrite after_batches_cases. cbn zeta. rewrite Hb.
    cbn [improves]. eexists. split; [reflexivity|]. simpl.
    split_and!; try done.
    - rewrite Hev, !started_epochs_app, (started_epochs_backward evs Hback).
      done.
    - by rewrite Hb. }
  exists s1. split_and!; try done.
  unfold main_train. cbn [andb]. rewrite Htrain. cbn [mbind result_bind].
  simpl. by rewrite Hm.
Qed.

Lemma main_train_fresh_run_witness :
  ∃ s1,
    train (Args 1 3 1 SchedNone 0 false) 1 None (losses_env [4; 3]%Q)
      (Some 1%Z) 2 2 = Ok (true, s1)
    ∧ started_epochs (events s1) = [1%Z]
    ∧ opt_params (optimizer s1) = 1
    ∧ best_valid_loss s1
      = Finite (effective_loss (Args 1 3 1 SchedNone 0 false)
                  (ValidMetrics 0 4))
    ∧ model_pt s1 = Some (Checkpoint 2 (step s1) Infinity)
    ∧ main_train (Args 1 3 1 SchedNone 0 false) true true 2 1 2 None
        (losses_env [4; 3]%Q)
      = (r2 ← train (Args 1 3 1 SchedNone 0 false) 2
                (Some (Checkpoint 2 (step s1) Infinity))
                (losses_env [4; 3]%Q) None 2 2;
         Ok [(true, s1); r2]).
Proof.
  apply (main_train_fresh_run (Args 1 3 1 SchedNone 0 false) 2 1 2
           (losses_env [4; 3]%Q) [Batch 2 (Tensor1 [1; 2]%Q)]
           (ValidMetrics 0 4)).
  - simpl. lia.
  - by left.
  - reflexivity.
Defined.


